(** * jsonReplacer: the bounded dog-to-cat JSON transformer and the safe parser

    A shallow embedding of [src/services/jsonReplacer.ts] and of the types it
    uses from [src/types/index.ts].

    - A JavaScript string is its sequence of UTF-16 code units; the regular
      expression of [replaceInString] has no [u] flag, so it works on code
      units.
    - The numbers of a [ReplacementContext] are integers ([Z]).
    - An object is the sequence of its own enumerable properties, in the
      order [Object.keys] lists them.
    - A call that mutates the context and may throw is a function from the
      context to a completion and the context left behind. *)

From Equations Require Import Equations.
From Stdlib Require Import String Ascii PrimFloat DecimalString.
From Stdlib Require Import List Arith ZArith NArith Bool Lia.
Import ListNotations.

Set Implicit Arguments.

Local Open Scope Z_scope.

(** ** Strings *)

Definition code_unit : Type := N.
Definition jstring : Type := list code_unit.

(** The string with the characters of an ASCII literal. *)
Definition lit (s : string) : jstring :=
  List.map N_of_ascii (list_ascii_of_string s).

(** [a === b] on strings. *)
Fixpoint jstring_eqb (a b : jstring) : bool :=
  match a, b with
  | [], [] => true
  | x :: a', y :: b' => (x =? y)%N && jstring_eqb a' b'
  | _, _ => false
  end.

(** [str.slice(from)] and [str.slice(from, to)] for [0 <= from <= to]. *)
Definition sliceFrom (s : jstring) (from : nat) : jstring := skipn from s.
Definition slice (s : jstring) (from to : nat) : jstring :=
  firstn (to - from) (skipn from s).

(** ** The data model of [src/types/index.ts] *)

#[local] Unset Elimination Schemes.
Inductive JsonValue : Type :=
| JNull : JsonValue
| JBool : bool -> JsonValue
| JNumber : float -> JsonValue
| JString : jstring -> JsonValue
| JArray : list JsonValue -> JsonValue
| JObject : list (jstring * JsonValue) -> JsonValue.
#[local] Set Elimination Schemes.

Definition JsonObject : Type := list (jstring * JsonValue).

Record ReplacementResult : Type := mkResult {
  result : JsonValue;
  replacements : Z;
  limitReached : bool
}.

Record ReplacementContext : Type := mkContext {
  count : Z;
  limit : Z;
  depth : Z;
  maxDepth : Z
}.

(** [class DepthLimitExceededError]: the error carries the configured depth
    in its message. *)
Inductive Error : Type :=
| DepthLimitExceededError (configuredMax : Z).

(** ** Completions and the context monad *)

Inductive Completion (A : Type) : Type :=
| Normal (a : A)
| Throw (e : Error).
Arguments Normal {A} a.
Arguments Throw {A} e.

Definition M (A : Type) : Type :=
  ReplacementContext -> Completion A * ReplacementContext.

Definition ret {A} (a : A) : M A := fun c => (Normal a, c).
Definition throw {A} (e : Error) : M A := fun c => (Throw e, c).
Definition bind {A B} (m : M A) (k : A -> M B) : M B :=
  fun c =>
    match m c with
    | (Normal a, c') => k a c'
    | (Throw e, c') => (Throw e, c')
    end.

(** [try { body } finally { cleanup }], for a cleanup that only updates the
    context. *)
Definition try_finally {A} (body : M A)
    (cleanup : ReplacementContext -> ReplacementContext) : M A :=
  fun c => let (r, c') := body c in (r, cleanup c').

Declare Scope ctx_scope.
Delimit Scope ctx_scope with ctx.
Notation "x <- m ;; k" := (bind m (fun x => k))
  (at level 100, m at next level, right associativity) : ctx_scope.

Definition get : M ReplacementContext := fun c => (Normal c, c).
Definition modify (f : ReplacementContext -> ReplacementContext) : M unit :=
  fun c => (Normal tt, f c).

(** ** Constants *)

Definition SOURCE_WORD : jstring := Eval cbv in lit "dog".
Definition TARGET_WORD : jstring := Eval cbv in lit "cat".

Definition DANGEROUS_KEYS : list jstring :=
  Eval cbv in [lit "__proto__"; lit "constructor"; lit "prototype"].

(** [DANGEROUS_KEYS.has(key)] *)
Definition DANGEROUS_KEYS_has (key : jstring) : bool :=
  existsb (jstring_eqb key) DANGEROUS_KEYS.

(** ** The regular expression [(?<![a-zA-Z0-9])dog(?![a-zA-Z0-9])] *)

(** The character class [[a-zA-Z0-9]]. *)
Definition isAlnum (c : code_unit) : bool :=
  (((97 <=? c) && (c <=? 122)) || ((65 <=? c) && (c <=? 90))
   || ((48 <=? c) && (c <=? 57)))%N.

(** [(?<![a-zA-Z0-9])] at index [i]: no code unit before [i] or one outside
    the class. *)
Definition lookbehind (s : jstring) (i : nat) : bool :=
  match i with
  | O => true
  | S j => match nth_error s j with
           | Some c => negb (isAlnum c)
           | None => true
           end
  end.

(** [(?![a-zA-Z0-9])] at index [i]. *)
Definition lookahead (s : jstring) (i : nat) : bool :=
  match nth_error s i with
  | Some c => negb (isAlnum c)
  | None => true
  end.

(** The pattern matches with its first code unit at index [i]. *)
Definition matchesAt (s : jstring) (i : nat) : bool :=
  lookbehind s i
  && jstring_eqb (slice s i (i + length SOURCE_WORD)) SOURCE_WORD
  && lookahead s (i + length SOURCE_WORD).

(** The candidates [i], [i+1], ..., [i+n-1], tried in this order. *)
Fixpoint search (s : jstring) (i n : nat) : option nat :=
  match n with
  | O => None
  | S n' => if matchesAt s i then Some i else search s (S i) n'
  end.

(** [pattern.exec(str)] of a global pattern whose [lastIndex] is
    [lastIndex]: the index of the first match at or after it. On a match the
    pattern's [lastIndex] becomes the end of the match. *)
Definition exec (s : jstring) (lastIndex : nat) : option nat :=
  search s lastIndex (length s + 1 - lastIndex).

(** Every match starts at or after the index the search started from and
    lies inside the string, so the loop of [replaceInString] advances. *)
Lemma search_some (s : jstring) (n i m : nat) :
  search s i n = Some m -> (i <= m < i + n)%nat /\ matchesAt s m = true.
Proof.
  revert i; induction n as [|n IH]; intros i; simpl; [discriminate|].
  destruct (matchesAt s i) eqn:E.
  - intros [= <-]. split; [lia | exact E].
  - intros H. apply IH in H. split; [lia | tauto].
Qed.

Lemma exec_some (s : jstring) (lastIndex m : nat) :
  exec s lastIndex = Some m ->
  (lastIndex <= m <= length s)%nat /\ matchesAt s m = true.
Proof.
  unfold exec. intros H. apply search_some in H. split; [lia | tauto].
Qed.

(** ** [replaceInString] *)

Definition inspect {A} (a : A) : {b : A | a = b} := exist _ a eq_refl.

Definition count_incr (c : ReplacementContext) : ReplacementContext :=
  mkContext (count c + 1) (limit c) (depth c) (maxDepth c).

(** The [while ((match = pattern.exec(str)) !== null)] loop. The state is
    the pattern's [lastIndex], the local [lastIndex], [result] and the
    context; the loop ends at [return result]. *)
Equations? replaceLoop (str : jstring) (patternLastIndex lastIndex : nat)
    (result : jstring) (context : ReplacementContext)
    : jstring * ReplacementContext
    by wf (length str + 1 - patternLastIndex)%nat lt :=
  replaceLoop str patternLastIndex lastIndex result context
    with inspect (exec str patternLastIndex) := {
    | exist _ None _ =>
        (result ++ sliceFrom str lastIndex, context)
    | exist _ (Some index) Hexec =>
        if count context >=? limit context
        then (result ++ sliceFrom str lastIndex, context)
        else replaceLoop str
               (index + length SOURCE_WORD) (index + length SOURCE_WORD)
               (result ++ slice str lastIndex index ++ TARGET_WORD)
               (count_incr context) }.
Proof.
  apply exec_some in Hexec. simpl. lia.
Qed.

Definition replaceInString (str : jstring) : M jstring :=
  fun context =>
    if count context >=? limit context then (Normal str, context)
    else let (r, c) := replaceLoop str 0 0 [] context in (Normal r, c).

(** ** Objects *)

(** [Object.keys(obj)] *)
Definition Object_keys (obj : JsonObject) : list jstring := List.map fst obj.

(** [obj[key] = v]: the property keeps its place when the object has it and
    is added after the others when it has not. *)
Fixpoint obj_set (obj : JsonObject) (key : jstring) (v : JsonValue) : JsonObject :=
  match obj with
  | [] => [(key, v)]
  | (k, x) :: rest =>
      if jstring_eqb k key then (k, v) :: rest
      else (k, x) :: obj_set rest key v
  end.

(** ** [traverse], [traverseArray], [traverseObject] *)

Definition depth_incr (c : ReplacementContext) : ReplacementContext :=
  mkContext (count c) (limit c) (depth c + 1) (maxDepth c).
Definition depth_decr (c : ReplacementContext) : ReplacementContext :=
  mkContext (count c) (limit c) (depth c - 1) (maxDepth c).

Section Children.
Local Open Scope ctx_scope.

(** The three functions are mutually recursive; the two on containers
    are written over the function they call on each child. *)
Variable traverse : JsonValue -> M JsonValue.

(** [arr.map((item) => traverse(item, context))] *)
Fixpoint traverseArrayWith (arr : list JsonValue) : M (list JsonValue) :=
  match arr with
  | [] => ret []
  | item :: rest =>
      v <- traverse item ;;
      vs <- traverseArrayWith rest ;;
      ret (v :: vs)
  end.

(** The [for (const key of Object.keys(obj))] loop, at the properties
    still to visit (each key with [obj[key]]) and the [result] so far. *)
Fixpoint traverseObjectLoop (props : JsonObject) (result : JsonObject) : M JsonObject :=
  match props with
  | [] => ret result
  | (key, value) :: rest =>
      if DANGEROUS_KEYS_has key then traverseObjectLoop rest result
      else
        v <- traverse value ;;
        traverseObjectLoop rest (obj_set result key v)
  end.
End Children.

Section Traverse.
Local Open Scope ctx_scope.

Fixpoint traverse (value : JsonValue) {struct value} : M JsonValue :=
  context <- get ;;
  if depth context >? maxDepth context
  then throw (DepthLimitExceededError (maxDepth context))
  else
    match value with
    | JNull => ret JNull
    | JString str => s <- replaceInString str ;; ret (JString s)
    | JNumber _ | JBool _ => ret value
    | JArray arr =>
        _ <- modify depth_incr ;;
        try_finally
          (r <- traverseArrayWith traverse arr ;; ret (JArray r))
          depth_decr
    | JObject obj =>
        _ <- modify depth_incr ;;
        try_finally
          (r <- traverseObjectLoop traverse obj [] ;; ret (JObject r))
          depth_decr
    end.

Definition traverseArray (arr : list JsonValue) : M (list JsonValue) :=
  traverseArrayWith traverse arr.

Definition traverseObject (obj : JsonObject) : M JsonObject :=
  traverseObjectLoop traverse obj [].
End Traverse.

(** ** [replaceDogsWithCats] *)

Definition replaceDogsWithCats (input : JsonValue) (maxReplacements maxDepth : Z)
    : Completion ReplacementResult :=
  let context := mkContext 0 maxReplacements 0 maxDepth in
  match traverse input context with
  | (Normal result, context) =>
      Normal (mkResult result (count context) (count context >=? limit context))
  | (Throw e, _) => Throw e
  end.

(** ** [safeJsonParse] *)

(** The reviver's loop [for (const k of Object.keys(value))], at the
    properties still to visit and [safeObj] so far. *)
Fixpoint safeObjLoop (props : JsonObject) (safeObj : JsonObject) : JsonObject :=
  match props with
  | [] => safeObj
  | (k, v) :: rest =>
      if negb (DANGEROUS_KEYS_has k) then safeObjLoop rest (obj_set safeObj k v)
      else safeObjLoop rest safeObj
  end.

(** The function passed to [JSON.parse]. *)
Definition reviver (_key : jstring) (value : JsonValue) : JsonValue :=
  match value with
  | JObject props => JObject (safeObjLoop props [])
  | _ => value
  end.

(** [ToString(i)] of an array index. *)
Definition index_key (i : nat) : jstring :=
  lit (DecimalString.NilEmpty.string_of_uint (Nat.to_uint i)).

Section JSONParse.
(** [JSON.parse] is the host's: its grammar is the parameter [parseText],
    [None] standing for the [SyntaxError] it throws. What it does with a
    reviver (the standard's InternalizeJSONProperty) is written out: the
    properties of a container are revived first, each replaced by what
    the reviver returned, then the reviver is called on the container. The
    reviver [rev] returns a JSON value, never [undefined], so no property
    is deleted on the way. *)
Variable parseText : jstring -> option JsonValue.
Variable rev : jstring -> JsonValue -> JsonValue.

Section Elements.
Variable internalize : jstring -> JsonValue -> JsonValue.

Fixpoint internalizeElements (i : nat) (elems : list JsonValue) : list JsonValue :=
  match elems with
  | [] => []
  | e :: rest => internalize (index_key i) e :: internalizeElements (S i) rest
  end.

Fixpoint internalizeProperties (props : JsonObject) : JsonObject :=
  match props with
  | [] => []
  | (k, v) :: rest => (k, internalize k v) :: internalizeProperties rest
  end.
End Elements.

Fixpoint internalize (name : jstring) (val : JsonValue) {struct val} : JsonValue :=
  match val with
  | JArray elems => rev name (JArray (internalizeElements internalize 0 elems))
  | JObject props => rev name (JObject (internalizeProperties internalize props))
  | _ => rev name val
  end.

Definition JSON_parse (text : jstring) : option JsonValue :=
  match parseText text with
  | Some unfiltered => Some (internalize [] unfiltered)
  | None => None
  end.
End JSONParse.

Definition safeJsonParse (parseText : jstring -> option JsonValue) (json : jstring)
    : option JsonValue :=
  JSON_parse parseText reviver json.

(** ** Notions the properties are stated with *)

(** The number of nested containers above the deepest value of [v]; the
    root is at depth 0. *)
Fixpoint nesting (v : JsonValue) : nat :=
  match v with
  | JArray arr =>
      fold_right (fun x acc => Nat.max (S (nesting x)) acc) 0%nat arr
  | JObject obj =>
      fold_right (fun kv acc => Nat.max (S (nesting (snd kv))) acc) 0%nat obj
  | _ => 0%nat
  end.

(** The same, over the values [traverse] visits: not below a key of
    [DANGEROUS_KEYS]. *)
Fixpoint visitedNesting (v : JsonValue) : nat :=
  match v with
  | JArray arr =>
      fold_right (fun x acc => Nat.max (S (visitedNesting x)) acc) 0%nat arr
  | JObject obj =>
      fold_right (fun kv acc =>
                    if DANGEROUS_KEYS_has (fst kv) then acc
                    else Nat.max (S (visitedNesting (snd kv))) acc) 0%nat obj
  | _ => 0%nat
  end.

(** The properties of an object that are not under a dangerous key. *)
Definition safeProps (obj : JsonObject) : JsonObject :=
  filter (fun kv => negb (DANGEROUS_KEYS_has (fst kv))) obj.

(** [v] without the properties under a dangerous key, at every level. *)
Section Strip.
Variable strip : JsonValue -> JsonValue.

Fixpoint stripProps (obj : JsonObject) : JsonObject :=
  match obj with
  | [] => []
  | (k, x) :: rest =>
      if DANGEROUS_KEYS_has k then stripProps rest
      else (k, strip x) :: stripProps rest
  end.
End Strip.

Fixpoint stripDangerous (v : JsonValue) : JsonValue :=
  match v with
  | JArray arr => JArray (List.map stripDangerous arr)
  | JObject obj => JObject (stripProps stripDangerous obj)
  | _ => v
  end.

(** No object of [v], at any level, has a key of [DANGEROUS_KEYS]. *)
Fixpoint noDangerousKeys (v : JsonValue) : bool :=
  match v with
  | JArray arr => forallb noDangerousKeys arr
  | JObject obj =>
      forallb (fun kv => negb (DANGEROUS_KEYS_has (fst kv))
                         && noDangerousKeys (snd kv)) obj
  | _ => true
  end.

(** The keys of a JavaScript object are pairwise distinct. *)
Fixpoint distinct (keys : list jstring) : bool :=
  match keys with
  | [] => true
  | k :: rest => negb (existsb (jstring_eqb k) rest) && distinct rest
  end.

Fixpoint uniqueKeys (v : JsonValue) : bool :=
  match v with
  | JArray arr => forallb uniqueKeys arr
  | JObject obj =>
      distinct (Object_keys obj) && forallb (fun kv => uniqueKeys (snd kv)) obj
  | _ => true
  end.

(** The indices at which the pattern matches, in increasing order. *)
Definition positionsFrom (s : jstring) (from : nat) : list nat :=
  filter (matchesAt s) (seq from (length s + 1 - from)).
Definition matchPositions (s : jstring) : list nat := positionsFrom s 0.

(** [s] from index [from] on, with the target word in place of the source
    word at each of [positions] and everything else copied. *)
Fixpoint substitute (s : jstring) (from : nat) (positions : list nat) : jstring :=
  match positions with
  | [] => sliceFrom s from
  | p :: rest =>
      slice s from p ++ TARGET_WORD
      ++ substitute s (p + length SOURCE_WORD) rest
  end.

(** An ASCII letter or digit. *)
Definition asciiAlphanumeric (ch : code_unit) : Prop :=
  (48 <= ch <= 57 \/ 65 <= ch <= 90 \/ 97 <= ch <= 122)%N.

(** No string value of [v] has a whole-word occurrence of the source word. *)
Fixpoint noSourceWord (v : JsonValue) : bool :=
  match v with
  | JString s => match matchPositions s with [] => true | _ => false end
  | JArray arr => forallb noSourceWord arr
  | JObject obj => forallb (fun kv => noSourceWord (snd kv)) obj
  | _ => true
  end.

(** A value whose deepest part is under a dangerous key. *)
Definition deepUnderConstructor : JsonValue :=
  JObject [(lit "constructor", JArray [JArray [JNumber 1%float]])].

(** An object with a dangerous key and no string at all. *)
Definition constructorOnly : JsonValue :=
  JObject [(lit "constructor", JNumber 1%float)].

(** What is left of the budget, and the context after [k] replacements. *)
Definition budget (c : ReplacementContext) : nat :=
  Z.to_nat (limit c - count c).
Definition count_add (c : ReplacementContext) (k : nat) : ReplacementContext :=
  mkContext (count c + Z.of_nat k) (limit c) (depth c) (maxDepth c).

(** [c'] has the limits and the depth of [c], and a count that has grown
    without passing the limit. *)
Definition frame (c c' : ReplacementContext) : Prop :=
  limit c' = limit c /\ maxDepth c' = maxDepth c /\ depth c' = depth c /\
  count c <= count c' /\ (count c <= limit c -> count c' <= limit c).

(** [traverse] on [v] from context [c] returns when the values it visits
    stay within the limit, and throws when one of them is past it. *)
Definition depthDecides (v : JsonValue) : Prop :=
  forall c : ReplacementContext,
    (depth c + Z.of_nat (visitedNesting v) <= maxDepth c ->
     exists r, fst (traverse v c) = Normal r)
    /\ (maxDepth c < depth c + Z.of_nat (visitedNesting v) ->
        fst (traverse v c) = Throw (DepthLimitExceededError (maxDepth c))).

(** The properties of an object under construction are safe: no dangerous
    key, and values without dangerous keys. *)
Definition safeEntry (kv : jstring * JsonValue) : bool :=
  negb (DANGEROUS_KEYS_has (fst kv)) && noDangerousKeys (snd kv).

(** A value [traverse] returns for [v] has no dangerous key. *)
Definition returnsSafe (v : JsonValue) : Prop :=
  forall c r c', traverse v c = (Normal r, c') -> noDangerousKeys r = true.

(** Nothing is replaced when the budget is used up or no string has a
    match: then a traversal within the depth limit returns the value
    without its dangerous properties and leaves the context as it was. *)
Definition nothingToReplace (c : ReplacementContext) (v : JsonValue) : Prop :=
  limit c <= count c \/ noSourceWord v = true.

(** The text [{"__proto__":{"x":1},"safe":"dog"}] and a parser that knows
    this text only, for an instance of [safeJsonParse]. *)
Definition pollutedText : jstring :=
  lit "{" ++ [34%N] ++ lit "__proto__" ++ [34%N] ++ lit ":{" ++ [34%N]
  ++ lit "x" ++ [34%N] ++ lit ":1}," ++ [34%N] ++ lit "safe" ++ [34%N]
  ++ lit ":" ++ [34%N] ++ lit "dog" ++ [34%N] ++ lit "}".

Definition parsePolluted (text : jstring) : option JsonValue :=
  if jstring_eqb text pollutedText
  then Some (JObject [(lit "__proto__", JObject [(lit "x", JNumber 1%float)]);
                      (lit "safe", JString (lit "dog"))])
  else None.

(** ** Induction over JSON values *)

Section JsonValueInd.
Variable P : JsonValue -> Prop.
Hypothesis HNull : P JNull.
Hypothesis HBool : forall b, P (JBool b).
Hypothesis HNumber : forall n, P (JNumber n).
Hypothesis HString : forall s, P (JString s).
Hypothesis HArray : forall arr, Forall P arr -> P (JArray arr).
Hypothesis HObject :
  forall obj, Forall (fun kv => P (snd kv)) obj -> P (JObject obj).

Fixpoint JsonValue_ind (v : JsonValue) : P v :=
  match v with
  | JNull => HNull
  | JBool b => HBool b
  | JNumber n => HNumber n
  | JString s => HString s
  | JArray arr =>
      HArray ((fix go (l : list JsonValue) : Forall P l :=
                 match l with
                 | [] => Forall_nil _
                 | x :: r => Forall_cons x (JsonValue_ind x) (go r)
                 end) arr)
  | JObject obj =>
      HObject ((fix go (l : JsonObject) : Forall (fun kv => P (snd kv)) l :=
                  match l with
                  | [] => Forall_nil _
                  | kv :: r => Forall_cons kv (JsonValue_ind (snd kv)) (go r)
                  end) obj)
  end.
End JsonValueInd.

(** ** Strings: the matches of the pattern *)

Lemma jstring_eqb_eq (a b : jstring) : jstring_eqb a b = true <-> a = b.
Proof.
  revert b; induction a as [|x a IH]; intros [|y b]; simpl;
    try (split; [discriminate | congruence]); [tauto|].
  rewrite andb_true_iff, N.eqb_eq, IH. split.
  - intros [-> ->]; reflexivity.
  - intros [= -> ->]; auto.
Qed.

Lemma skipn_S_tl {A : Type} (i : nat) (l : list A) :
  skipn (S i) l = tl (skipn i l).
Proof.
  revert l; induction i as [|i IH]; intros [|x l]; try reflexivity.
  change (skipn (S i) l = tl (skipn i l)). apply IH.
Qed.

Lemma matchesAt_source (s : jstring) (m : nat) :
  matchesAt s m = true -> exists rest, skipn m s = SOURCE_WORD ++ rest.
Proof.
  unfold matchesAt, slice.
  rewrite !andb_true_iff, jstring_eqb_eq. intros [[_ H] _].
  replace (m + length SOURCE_WORD - m)%nat with 3%nat in H by (simpl; lia).
  destruct (skipn m s) as [|a [|b [|c rest]]]; try discriminate.
  exists rest. unfold SOURCE_WORD in *. simpl in H |- *. congruence.
Qed.

Lemma matchesAt_inside (s : jstring) (m : nat) :
  matchesAt s m = true -> (m + length SOURCE_WORD <= length s)%nat.
Proof.
  intros H. destruct (matchesAt_source _ _ H) as [rest E].
  apply (f_equal (@length _)) in E.
  rewrite length_skipn, length_app in E. simpl in *. lia.
Qed.

(** Two matches do not overlap: the source word does not start again
    inside itself. *)
Lemma matchesAt_apart (s : jstring) (m : nat) :
  matchesAt s m = true ->
  matchesAt s (S m) = false /\ matchesAt s (S (S m)) = false.
Proof.
  intros H. destruct (matchesAt_source _ _ H) as [rest E].
  assert (E1 : skipn (S m) s = tl (SOURCE_WORD ++ rest))
    by (rewrite skipn_S_tl, E; reflexivity).
  assert (E2 : skipn (S (S m)) s = tl (tl (SOURCE_WORD ++ rest)))
    by (rewrite skipn_S_tl, E1; reflexivity).
  unfold matchesAt, slice. rewrite E1, E2.
  replace (S m + length SOURCE_WORD - S m)%nat with 3%nat by (simpl; lia).
  replace (S (S m) + length SOURCE_WORD - S (S m))%nat with 3%nat
    by (simpl; lia).
  split.
  - destruct rest; simpl; rewrite andb_false_r; reflexivity.
  - destruct rest as [|? [|? ?]]; simpl; rewrite andb_false_r; reflexivity.
Qed.

Lemma search_none (s : jstring) (n i : nat) :
  search s i n = None -> filter (matchesAt s) (seq i n) = [].
Proof.
  revert i; induction n as [|n IH]; intros i; simpl; [reflexivity|].
  destruct (matchesAt s i); [discriminate | apply IH].
Qed.

Lemma search_first (s : jstring) (n i m : nat) :
  search s i n = Some m ->
  filter (matchesAt s) (seq i n)
  = m :: filter (matchesAt s) (seq (S m) (i + n - S m)).
Proof.
  revert i; induction n as [|n IH]; intros i; [discriminate|].
  cbn [search seq filter]. destruct (matchesAt s i) eqn:E.
  - intros [= <-]. replace (i + S n - S i)%nat with n by lia. reflexivity.
  - intros H. rewrite (IH _ H).
    replace (S i + n - S m)%nat with (i + S n - S m)%nat by lia. reflexivity.
Qed.

Lemma positionsFrom_none (s : jstring) (from : nat) :
  exec s from = None -> positionsFrom s from = [].
Proof. apply search_none. Qed.

Lemma positionsFrom_some (s : jstring) (from m : nat) :
  exec s from = Some m ->
  positionsFrom s from = m :: positionsFrom s (m + length SOURCE_WORD).
Proof.
  intros H. destruct (exec_some _ _ H) as [Hle Hm].
  pose proof (matchesAt_inside _ _ Hm) as Hin.
  destruct (matchesAt_apart _ _ Hm) as [H1 H2].
  unfold positionsFrom, exec in *. rewrite (search_first _ _ _ H).
  f_equal. simpl in Hin |- *.
  replace (from + (length s + 1 - from) - S m)%nat
    with (S (S (length s + 1 - (m + 3))))%nat by lia.
  simpl. rewrite H1, H2.
  replace (m + 3)%nat with (S (S (S m))) by lia. reflexivity.
Qed.

(** ** [replaceInString] replaces the first matches the budget allows *)

Lemma count_add_0 (c : ReplacementContext) : count_add c 0 = c.
Proof. destruct c; unfold count_add; simpl. f_equal. lia. Qed.

Lemma replaceLoop_spec (s : jstring) (p li : nat) (res : jstring)
    (c : ReplacementContext) :
  replaceLoop s p li res c
  = (res ++ substitute s li
              (firstn (Nat.min (length (positionsFrom s p)) (budget c))
                 (positionsFrom s p)),
     count_add c (Nat.min (length (positionsFrom s p)) (budget c))).
Proof.
  funelim (replaceLoop s p li res c).
  - clear Heqcall. rewrite (positionsFrom_some _ _ Hexec).
    unfold budget in *. simpl count in *. simpl limit in *.
    destruct (Z.geb_spec (count context) (limit context)) as [Hge|Hlt].
    + replace (Z.to_nat (limit context - count context)) with 0%nat by lia.
      rewrite Nat.min_0_r, count_add_0. reflexivity.
    + rewrite H.
      replace (Z.to_nat (limit context - count context))
        with (S (Z.to_nat (limit context - (count context + 1)))) by lia.
      cbn [length firstn substitute Nat.min].
      rewrite <- !app_assoc. f_equal.
      unfold count_add, count_incr; simpl. f_equal. lia.
  - rewrite (positionsFrom_none _ _ e). simpl. rewrite count_add_0.
    reflexivity.
Qed.

(** [replaceInString] never throws. With [k] the smaller of the number of
    matches and what is left of the budget, it returns the string with its
    first [k] matches replaced and has counted [k] replacements. *)
Lemma replaceInString_spec (s : jstring) (c : ReplacementContext) :
  replaceInString s c
  = (Normal (substitute s 0
               (firstn (Nat.min (length (matchPositions s)) (budget c))
                  (matchPositions s))),
     count_add c (Nat.min (length (matchPositions s)) (budget c))).
Proof.
  unfold replaceInString.
  destruct (Z.geb_spec (count c) (limit c)) as [Hge|Hlt].
  - unfold budget. replace (Z.to_nat (limit c - count c)) with 0%nat by lia.
    rewrite Nat.min_0_r, count_add_0. reflexivity.
  - rewrite replaceLoop_spec. reflexivity.
Qed.

(** ** The equations of [traverse] *)

Lemma traverse_deep (v : JsonValue) (c : ReplacementContext) :
  maxDepth c < depth c ->
  traverse v c = (Throw (DepthLimitExceededError (maxDepth c)), c).
Proof.
  intros H. destruct v; unfold traverse, bind, get; simpl;
    destruct (Z.gtb_spec (depth c) (maxDepth c)); try lia; reflexivity.
Qed.

Lemma traverse_scalar (v : JsonValue) (c : ReplacementContext) :
  depth c <= maxDepth c ->
  match v with JNull | JBool _ | JNumber _ => True | _ => False end ->
  traverse v c = (Normal v, c).
Proof.
  intros H Hv. destruct v; try contradiction; unfold traverse, bind, get; simpl;
    destruct (Z.gtb_spec (depth c) (maxDepth c)); try lia; reflexivity.
Qed.

Lemma traverse_JString (s : jstring) (c : ReplacementContext) :
  depth c <= maxDepth c ->
  traverse (JString s) c
  = (Normal (JString (substitute s 0
                        (firstn (Nat.min (length (matchPositions s)) (budget c))
                           (matchPositions s)))),
     count_add c (Nat.min (length (matchPositions s)) (budget c))).
Proof.
  intros H. unfold traverse, bind, get; simpl.
  destruct (Z.gtb_spec (depth c) (maxDepth c)); try lia.
  rewrite replaceInString_spec. reflexivity.
Qed.

Lemma traverse_JArray (arr : list JsonValue) (c : ReplacementContext) :
  depth c <= maxDepth c ->
  traverse (JArray arr) c
  = match traverseArray arr (depth_incr c) with
    | (Normal r, c') => (Normal (JArray r), depth_decr c')
    | (Throw e, c') => (Throw e, depth_decr c')
    end.
Proof.
  intros H. unfold traverseArray.
  change (traverse (JArray arr) c)
    with (bind get (fun context =>
            if depth context >? maxDepth context
            then throw (DepthLimitExceededError (maxDepth context))
            else bind (modify depth_incr) (fun _ =>
                   try_finally
                     (bind (traverseArrayWith traverse arr)
                        (fun r => ret (JArray r)))
                     depth_decr)) c).
  unfold bind, get, modify, try_finally, ret.
  destruct (Z.gtb_spec (depth c) (maxDepth c)); try lia.
  destruct (traverseArrayWith traverse arr (depth_incr c)) as [[r|e] c'];
    reflexivity.
Qed.

Lemma traverse_JObject (obj : JsonObject) (c : ReplacementContext) :
  depth c <= maxDepth c ->
  traverse (JObject obj) c
  = match traverseObject obj (depth_incr c) with
    | (Normal r, c') => (Normal (JObject r), depth_decr c')
    | (Throw e, c') => (Throw e, depth_decr c')
    end.
Proof.
  intros H. unfold traverseObject.
  change (traverse (JObject obj) c)
    with (bind get (fun context =>
            if depth context >? maxDepth context
            then throw (DepthLimitExceededError (maxDepth context))
            else bind (modify depth_incr) (fun _ =>
                   try_finally
                     (bind (traverseObjectLoop traverse obj [])
                        (fun r => ret (JObject r)))
                     depth_decr)) c).
  unfold bind, get, modify, try_finally, ret.
  destruct (Z.gtb_spec (depth c) (maxDepth c)); try lia.
  destruct (traverseObjectLoop traverse obj [] (depth_incr c)) as [[r|e] c'];
    reflexivity.
Qed.

Lemma traverseArray_nil (c : ReplacementContext) :
  traverseArray [] c = (Normal [], c).
Proof. reflexivity. Qed.

Lemma traverseArray_cons (item : JsonValue) (rest : list JsonValue)
    (c : ReplacementContext) :
  traverseArray (item :: rest) c
  = match traverse item c with
    | (Normal v, c1) =>
        match traverseArray rest c1 with
        | (Normal vs, c2) => (Normal (v :: vs), c2)
        | (Throw e, c2) => (Throw e, c2)
        end
    | (Throw e, c1) => (Throw e, c1)
    end.
Proof.
  unfold traverseArray. cbn [traverseArrayWith]. unfold bind, ret.
  destruct (traverse item c) as [[v|e] c1]; [|reflexivity].
  destruct (traverseArrayWith traverse rest c1) as [[vs|e] c2]; reflexivity.
Qed.

Lemma traverseObjectLoop_nil (acc : JsonObject) (c : ReplacementContext) :
  traverseObjectLoop traverse [] acc c = (Normal acc, c).
Proof. reflexivity. Qed.

Lemma traverseObjectLoop_cons (key : jstring) (value : JsonValue)
    (rest acc : JsonObject) (c : ReplacementContext) :
  traverseObjectLoop traverse ((key, value) :: rest) acc c
  = if DANGEROUS_KEYS_has key then traverseObjectLoop traverse rest acc c
    else match traverse value c with
         | (Normal v, c1) =>
             traverseObjectLoop traverse rest (obj_set acc key v) c1
         | (Throw e, c1) => (Throw e, c1)
         end.
Proof.
  cbn [traverseObjectLoop]. destruct (DANGEROUS_KEYS_has key); reflexivity.
Qed.

(** ** What a traversal leaves of the context *)

Lemma frame_refl (c : ReplacementContext) : frame c c.
Proof. unfold frame. lia. Qed.

Lemma frame_trans (c1 c2 c3 : ReplacementContext) :
  frame c1 c2 -> frame c2 c3 -> frame c1 c3.
Proof. unfold frame. lia. Qed.

Lemma frame_count_add (c : ReplacementContext) (k : nat) :
  (k <= budget c)%nat -> frame c (count_add c k).
Proof. unfold frame, budget, count_add; simpl. lia. Qed.

Lemma frame_container (c c' : ReplacementContext) :
  frame (depth_incr c) c' -> frame c (depth_decr c').
Proof. unfold frame, depth_incr, depth_decr; simpl. lia. Qed.

Lemma replaceInString_frame (s : jstring) (c : ReplacementContext) :
  frame c (snd (replaceInString s c)).
Proof.
  rewrite replaceInString_spec. apply frame_count_add. apply Nat.le_min_r.
Qed.

Lemma traverseArray_frame (arr : list JsonValue) :
  Forall (fun v => forall c, frame c (snd (traverse v c))) arr ->
  forall c, frame c (snd (traverseArray arr c)).
Proof.
  induction 1 as [|item rest Hitem _ IH]; intros c.
  - apply frame_refl.
  - rewrite traverseArray_cons. specialize (Hitem c).
    destruct (traverse item c) as [[v|e] c1]; [|exact Hitem].
    specialize (IH c1).
    destruct (traverseArray rest c1) as [[vs|e] c2];
      exact (frame_trans Hitem IH).
Qed.

Lemma traverseObjectLoop_frame (obj : JsonObject) :
  Forall (fun kv => forall c, frame c (snd (traverse (snd kv) c))) obj ->
  forall acc c, frame c (snd (traverseObjectLoop traverse obj acc c)).
Proof.
  induction 1 as [|[key value] rest Hv _ IH]; intros acc c.
  - apply frame_refl.
  - rewrite traverseObjectLoop_cons.
    destruct (DANGEROUS_KEYS_has key); [apply IH|].
    specialize (Hv c). simpl in Hv.
    destruct (traverse value c) as [[v|e] c1]; [|exact Hv].
    exact (frame_trans Hv (IH _ c1)).
Qed.

Lemma traverse_frame (v : JsonValue) (c : ReplacementContext) :
  frame c (snd (traverse v c)).
Proof.
  revert c. induction v using JsonValue_ind; intros c;
    destruct (Z.lt_ge_cases (maxDepth c) (depth c)) as [Hdeep|Hok];
    try (rewrite traverse_deep by exact Hdeep; apply frame_refl).
  - rewrite traverse_scalar by (exact Hok || exact I). apply frame_refl.
  - rewrite traverse_scalar by (exact Hok || exact I). apply frame_refl.
  - rewrite traverse_scalar by (exact Hok || exact I). apply frame_refl.
  - rewrite traverse_JString by exact Hok.
    apply frame_count_add, Nat.le_min_r.
  - rewrite traverse_JArray by exact Hok.
    pose proof (traverseArray_frame H (depth_incr c)) as F.
    destruct (traverseArray arr (depth_incr c)) as [[r|e] c'];
      apply frame_container; exact F.
  - rewrite traverse_JObject by exact Hok.
    pose proof (traverseObjectLoop_frame H [] (depth_incr c)) as F.
    unfold traverseObject.
    destruct (traverseObjectLoop traverse obj [] (depth_incr c)) as [[r|e] c'];
      apply frame_container; exact F.
Qed.

(** C9. For every value and every context, the context [traverse] leaves
    has the depth it was entered with, whether the call returned or threw
    (also partway through the children of a container). *)
Theorem traverse_restores_depth (v : JsonValue) (c : ReplacementContext) :
  depth (snd (traverse v c)) = depth c.
Proof. apply (traverse_frame v c). Qed.

(** C1. With [limit >= 0] and [maxDepth >= 1], a result that
    [replaceDogsWithCats] returns has [0 <= replacements <= limit] and
    [limitReached = (replacements >= limit)]. The bound holds string by
    string: [replaceInString] entered with a count within the limit leaves
    a count within the limit, however many matches the string has. *)
Theorem replacements_within_limit :
  (forall (input : JsonValue) (lim maxD : Z) (r : ReplacementResult),
      0 <= lim -> 1 <= maxD ->
      replaceDogsWithCats input lim maxD = Normal r ->
      0 <= replacements r <= lim
      /\ limitReached r = (replacements r >=? lim))
  /\ (forall (s : jstring) (c : ReplacementContext),
        0 <= count c <= limit c ->
        0 <= count (snd (replaceInString s c)) <= limit c).
Proof.
  split.
  - intros input lim maxD r Hlim _. unfold replaceDogsWithCats.
    pose proof (traverse_frame input (mkContext 0 lim 0 maxD)) as F.
    destruct (traverse input (mkContext 0 lim 0 maxD)) as [[res|e] c'];
      [|discriminate].
    intros [= <-]. unfold frame in F. simpl in *.
    destruct F as (-> & _ & _ & H0 & Hle). split; [lia | reflexivity].
  - intros s c Hc. pose proof (replaceInString_frame s c) as F.
    unfold frame in F. lia.
Qed.

Lemma replacements_within_limit_witness :
  (0 <= replacements (mkResult (JString (lit "cat cat cat dog dog")) 3 true) <= 3
   /\ limitReached (mkResult (JString (lit "cat cat cat dog dog")) 3 true)
      = (replacements (mkResult (JString (lit "cat cat cat dog dog")) 3 true)
         >=? 3))
  /\ 0 <= count (snd (replaceInString (lit "dog dog dog dog dog")
                        (mkContext 1 3 0 100))) <= 3.
Proof.
  destruct replacements_within_limit as [Hresult Hstring]. split.
  - apply (Hresult (JString (lit "dog dog dog dog dog")) 3 100);
      [lia | lia | reflexivity].
  - apply (Hstring (lit "dog dog dog dog dog") (mkContext 1 3 0 100)).
    simpl. lia.
Defined.

(** ** Strings at the root *)

Lemma replaceDogsWithCats_JString (s : jstring) (lim maxD : Z) :
  0 <= maxD ->
  replaceDogsWithCats (JString s) lim maxD
  = Normal
      (mkResult
         (JString (substitute s 0
                     (firstn (Nat.min (length (matchPositions s)) (Z.to_nat lim))
                        (matchPositions s))))
         (Z.of_nat (Nat.min (length (matchPositions s)) (Z.to_nat lim)))
         (Z.of_nat (Nat.min (length (matchPositions s)) (Z.to_nat lim))
          >=? lim)).
Proof.
  intros H. unfold replaceDogsWithCats.
  rewrite traverse_JString by (simpl; lia).
  unfold budget, count_add; simpl. rewrite Z.sub_0_r. reflexivity.
Qed.

(** C3. [replaceInString] replaces the first [k] matches of the string,
    in increasing order of their index, where [k] is the smaller of the
    number of matches and the budget left; it counts [k] replacements and
    copies everything else, later matches included. On
    ["dog dog dog dog dog"] with limit 3 the result is
    ["cat cat cat dog dog"], 3 replacements, limit reached. *)
Theorem replaceInString_left_to_right :
  (forall (s : jstring) (c : ReplacementContext),
      replaceInString s c
      = (Normal (substitute s 0
                   (firstn (Nat.min (length (matchPositions s)) (budget c))
                      (matchPositions s))),
         count_add c (Nat.min (length (matchPositions s)) (budget c))))
  /\ (forall (s : jstring) (from : nat), substitute s from [] = sliceFrom s from)
  /\ (forall maxD : Z,
        1 <= maxD ->
        replaceDogsWithCats (JString (lit "dog dog dog dog dog")) 3 maxD
        = Normal (mkResult (JString (lit "cat cat cat dog dog")) 3 true)).
Proof.
  split; [exact replaceInString_spec|]. split; [reflexivity|].
  intros maxD H. rewrite replaceDogsWithCats_JString by lia. reflexivity.
Qed.

Lemma replaceInString_left_to_right_witness :
  replaceDogsWithCats (JString (lit "dog dog dog dog dog")) 3 100
  = Normal (mkResult (JString (lit "cat cat cat dog dog")) 3 true).
Proof.
  apply (proj2 (proj2 replaceInString_left_to_right) 100). lia.
Defined.

(** ** Word boundaries *)

Lemma isAlnum_spec (ch : code_unit) :
  isAlnum ch = true <-> asciiAlphanumeric ch.
Proof.
  unfold isAlnum, asciiAlphanumeric.
  rewrite !orb_true_iff, !andb_true_iff, !N.leb_le. tauto.
Qed.

Lemma isAlnum_non_ascii (ch : code_unit) :
  (128 <= ch)%N -> isAlnum ch = false.
Proof.
  intros H. destruct (isAlnum ch) eqn:E; [|reflexivity].
  apply isAlnum_spec in E. unfold asciiAlphanumeric in E. lia.
Qed.

Lemma matchesAt_after_alnum (s : jstring) (i : nat) (ch : code_unit) :
  nth_error s i = Some ch -> isAlnum ch = true -> matchesAt s (S i) = false.
Proof.
  intros H E. unfold matchesAt, lookbehind. rewrite H, E. reflexivity.
Qed.

Lemma matchesAt_before_alnum (s : jstring) (i : nat) (ch : code_unit) :
  nth_error s (i + length SOURCE_WORD) = Some ch -> isAlnum ch = true ->
  matchesAt s i = false.
Proof.
  intros H E. unfold matchesAt, lookahead. rewrite H, E.
  apply andb_false_r.
Qed.

Lemma matchesAt_not_source (s : jstring) (i : nat) :
  (forall rest, skipn i s <> SOURCE_WORD ++ rest) -> matchesAt s i = false.
Proof.
  intros H. destruct (matchesAt s i) eqn:E; [|reflexivity].
  destruct (matchesAt_source _ _ E) as [rest Hrest].
  destruct (H _ Hrest).
Qed.

(** Closes the premise of [matchesAt_not_source] on a string that is
    written out. *)
Ltac not_source :=
  let rest := fresh "rest" in
  intros rest; unfold SOURCE_WORD; simpl; congruence.

Lemma matchPositions_source_then_alnum (ch : code_unit) :
  isAlnum ch = true -> matchPositions (SOURCE_WORD ++ [ch]) = [].
Proof.
  intros E. unfold matchPositions, positionsFrom.
  change (seq 0 (length (SOURCE_WORD ++ [ch]) + 1 - 0))
    with [0; 1; 2; 3; 4]%nat.
  cbn [filter].
  rewrite (@matchesAt_before_alnum _ 0 ch) by (reflexivity || exact E).
  rewrite (@matchesAt_not_source _ 1) by not_source.
  rewrite (@matchesAt_not_source _ 2) by not_source.
  rewrite (@matchesAt_not_source _ 3) by not_source.
  rewrite (@matchesAt_not_source _ 4) by not_source.
  reflexivity.
Qed.

Lemma matchPositions_alnum_then_source (ch : code_unit) :
  isAlnum ch = true -> matchPositions (ch :: SOURCE_WORD) = [].
Proof.
  intros E. unfold matchPositions, positionsFrom.
  change (seq 0 (length (ch :: SOURCE_WORD) + 1 - 0))
    with [0; 1; 2; 3; 4]%nat.
  cbn [filter].
  rewrite (@matchesAt_not_source _ 0) by not_source.
  rewrite (@matchesAt_after_alnum _ 0 ch) by (reflexivity || exact E).
  rewrite (@matchesAt_not_source _ 2) by not_source.
  rewrite (@matchesAt_not_source _ 3) by not_source.
  rewrite (@matchesAt_not_source _ 4) by not_source.
  reflexivity.
Qed.

Lemma matchesAt_here (s : jstring) (i : nat) :
  lookbehind s i = true ->
  firstn 3 (skipn i s) = SOURCE_WORD ->
  lookahead s (i + 3) = true ->
  matchesAt s i = true.
Proof.
  intros Hb Hs Ha. unfold matchesAt, slice.
  replace (i + length SOURCE_WORD - i)%nat with 3%nat by (simpl; lia).
  change (length SOURCE_WORD) with 3%nat.
  rewrite Hb, Ha, Hs. reflexivity.
Qed.

Lemma matchPositions_source_then_other (ch : code_unit) :
  isAlnum ch = false -> matchPositions (SOURCE_WORD ++ [ch]) = [0%nat].
Proof.
  intros E. unfold matchPositions, positionsFrom.
  change (seq 0 (length (SOURCE_WORD ++ [ch]) + 1 - 0))
    with [0; 1; 2; 3; 4]%nat.
  cbn [filter].
  rewrite (@matchesAt_here _ 0)
    by (reflexivity || (unfold lookahead; simpl; rewrite E; reflexivity)).
  rewrite (@matchesAt_not_source _ 1) by not_source.
  rewrite (@matchesAt_not_source _ 2) by not_source.
  rewrite (@matchesAt_not_source _ 3) by not_source.
  rewrite (@matchesAt_not_source _ 4) by not_source.
  reflexivity.
Qed.

Lemma matchPositions_other_then_source (ch : code_unit) :
  isAlnum ch = false -> matchPositions (ch :: SOURCE_WORD) = [1%nat].
Proof.
  intros E. unfold matchPositions, positionsFrom.
  change (seq 0 (length (ch :: SOURCE_WORD) + 1 - 0))
    with [0; 1; 2; 3; 4]%nat.
  cbn [filter].
  rewrite (@matchesAt_not_source _ 0) by not_source.
  rewrite (@matchesAt_here _ 1)
    by (reflexivity || (unfold lookbehind; simpl; rewrite E; reflexivity)).
  rewrite (@matchesAt_not_source _ 2) by not_source.
  rewrite (@matchesAt_not_source _ 3) by not_source.
  rewrite (@matchesAt_not_source _ 4) by not_source.
  reflexivity.
Qed.

Lemma replaceDogsWithCats_no_match (s : jstring) (lim maxD : Z) :
  0 <= maxD -> matchPositions s = [] ->
  replaceDogsWithCats (JString s) lim maxD
  = Normal (mkResult (JString s) 0 (0 >=? lim)).
Proof.
  intros H E. rewrite replaceDogsWithCats_JString by exact H.
  rewrite E. reflexivity.
Qed.

Lemma replaceDogsWithCats_one_match (s : jstring) (p : nat) (lim maxD : Z) :
  1 <= lim -> 0 <= maxD -> matchPositions s = [p] ->
  replaceDogsWithCats (JString s) lim maxD
  = Normal (mkResult (JString (substitute s 0 [p])) 1 (1 >=? lim)).
Proof.
  intros Hl H E. rewrite replaceDogsWithCats_JString by exact H.
  rewrite E. replace (Z.to_nat lim) with (S (Z.to_nat (lim - 1))) by lia.
  reflexivity.
Qed.

(** C4. With a limit of at least 1, the source word alone becomes the
    target word, with one replacement. The source word with one ASCII
    letter or digit before it or after it comes back unchanged, with no
    replacement, and so do ["Dog"], ["DOG"] and ["dOg"]. *)
Theorem whole_word_exact_match :
  (forall lim maxD : Z,
      1 <= lim -> 1 <= maxD ->
      replaceDogsWithCats (JString SOURCE_WORD) lim maxD
      = Normal (mkResult (JString TARGET_WORD) 1 (1 >=? lim)))
  /\ (forall (ch : code_unit) (lim maxD : Z),
        asciiAlphanumeric ch -> 1 <= maxD ->
        replaceDogsWithCats (JString (ch :: SOURCE_WORD)) lim maxD
        = Normal (mkResult (JString (ch :: SOURCE_WORD)) 0 (0 >=? lim))
        /\ replaceDogsWithCats (JString (SOURCE_WORD ++ [ch])) lim maxD
           = Normal (mkResult (JString (SOURCE_WORD ++ [ch])) 0 (0 >=? lim)))
  /\ (forall (s : jstring) (lim maxD : Z),
        In s [lit "Dog"; lit "DOG"; lit "dOg"] -> 1 <= maxD ->
        replaceDogsWithCats (JString s) lim maxD
        = Normal (mkResult (JString s) 0 (0 >=? lim))).
Proof.
  split; [|split].
  - intros lim maxD Hl Hd.
    rewrite (@replaceDogsWithCats_one_match SOURCE_WORD 0) by (lia || reflexivity).
    reflexivity.
  - intros ch lim maxD Hch Hd. apply isAlnum_spec in Hch. split.
    + apply replaceDogsWithCats_no_match; [lia|].
      apply matchPositions_alnum_then_source, Hch.
    + apply replaceDogsWithCats_no_match; [lia|].
      apply matchPositions_source_then_alnum, Hch.
  - intros s lim maxD Hs Hd.
    apply replaceDogsWithCats_no_match; [lia|].
    simpl in Hs. destruct Hs as [<-|[<-|[<-|[]]]]; reflexivity.
Qed.

Lemma whole_word_exact_match_witness :
  replaceDogsWithCats (JString (lit "dog")) 100 100
  = Normal (mkResult (JString (lit "cat")) 1 false)
  /\ (replaceDogsWithCats (JString (lit "sdog")) 100 100
      = Normal (mkResult (JString (lit "sdog")) 0 false)
      /\ replaceDogsWithCats (JString (lit "dogs")) 100 100
         = Normal (mkResult (JString (lit "dogs")) 0 false))
  /\ replaceDogsWithCats (JString (lit "Dog")) 100 100
     = Normal (mkResult (JString (lit "Dog")) 0 false).
Proof.
  destruct whole_word_exact_match as (Hexact & Hjoined & Hcase).
  split; [|split].
  - apply (Hexact 100 100); lia.
  - apply (Hjoined 115%N 100 100); [unfold asciiAlphanumeric|]; lia.
  - apply (Hcase (lit "Dog") 100 100); [left; reflexivity | lia].
Defined.

(** C10. The class that bounds a word is the ASCII letters and digits and
    nothing else, so the source word next to a code unit outside ASCII is
    a whole word: with a limit of at least 1 it is replaced, and
    ["dog" ++ "\u00e9"] becomes ["cat" ++ "\u00e9"] with one replacement. *)
Theorem non_ascii_neighbour_is_a_boundary :
  (forall ch : code_unit, isAlnum ch = true <-> asciiAlphanumeric ch)
  /\ (forall (ch : code_unit) (lim maxD : Z),
        (128 <= ch)%N -> 1 <= lim -> 1 <= maxD ->
        replaceDogsWithCats (JString (SOURCE_WORD ++ [ch])) lim maxD
        = Normal (mkResult (JString (TARGET_WORD ++ [ch])) 1 (1 >=? lim))
        /\ replaceDogsWithCats (JString (ch :: SOURCE_WORD)) lim maxD
           = Normal (mkResult (JString (ch :: TARGET_WORD)) 1 (1 >=? lim)))
  /\ (forall lim maxD : Z,
        1 <= lim -> 1 <= maxD ->
        replaceDogsWithCats (JString (lit "dog" ++ [233%N])) lim maxD
        = Normal (mkResult (JString (lit "cat" ++ [233%N])) 1 (1 >=? lim))).
Proof.
  split; [exact isAlnum_spec|]. split.
  - intros ch lim maxD Hch Hl Hd. apply isAlnum_non_ascii in Hch. split.
    + rewrite (@replaceDogsWithCats_one_match _ 0)
        by (lia || apply matchPositions_source_then_other, Hch).
      reflexivity.
    + rewrite (@replaceDogsWithCats_one_match _ 1)
        by (lia || apply matchPositions_other_then_source, Hch).
      reflexivity.
  - intros lim maxD Hl Hd.
    rewrite (@replaceDogsWithCats_one_match _ 0) by (lia || reflexivity).
    reflexivity.
Qed.

Lemma non_ascii_neighbour_is_a_boundary_witness :
  replaceDogsWithCats (JString (lit "dog" ++ [233%N])) 100 100
  = Normal (mkResult (JString (lit "cat" ++ [233%N])) 1 false)
  /\ replaceDogsWithCats (JString (233%N :: lit "dog")) 100 100
     = Normal (mkResult (JString (233%N :: lit "cat")) 1 false).
Proof.
  destruct non_ascii_neighbour_is_a_boundary as (_ & Hnext & _).
  apply (Hnext 233%N 100 100); lia.
Defined.

(** ** The depth limit *)

Lemma traverseArray_depth (arr : list JsonValue) :
  Forall depthDecides arr ->
  forall c : ReplacementContext,
    depth c <= maxDepth c + 1 ->
    (depth c + Z.of_nat (visitedNesting (JArray arr)) <= maxDepth c + 1 ->
     exists r, fst (traverseArray arr c) = Normal r)
    /\ (maxDepth c + 1 < depth c + Z.of_nat (visitedNesting (JArray arr)) ->
        fst (traverseArray arr c)
        = Throw (DepthLimitExceededError (maxDepth c))).
Proof.
  induction 1 as [|item rest Hitem _ IH]; intros c Hc.
  - split; [eexists; reflexivity | simpl; lia].
  - rewrite traverseArray_cons.
    change (visitedNesting (JArray (item :: rest)))
      with (Nat.max (S (visitedNesting item)) (visitedNesting (JArray rest))).
    destruct (Hitem c) as [Hok Hdeep].
    pose proof (traverse_frame item c) as F.
    destruct (Z.le_gt_cases (depth c + Z.of_nat (visitedNesting item)) (maxDepth c))
      as [Hle|Hgt].
    + destruct (Hok Hle) as [v Hv].
      destruct (traverse item c) as [[v'|e] c1]; simpl in Hv; [|discriminate].
      destruct F as (_ & Fm & Fd & _). simpl in Fm, Fd.
      destruct (IH c1) as [IHok IHdeep]; [lia|]. rewrite Fm, Fd in *.
      split; intros Hb.
      * destruct IHok as [vs Hvs]; [lia|].
        destruct (traverseArray rest c1) as [[vs'|e] c2]; simpl in Hvs;
          [|discriminate].
        eexists; reflexivity.
      * specialize (IHdeep ltac:(lia)).
        destruct (traverseArray rest c1) as [[vs'|e] c2]; simpl in IHdeep;
          [discriminate|].
        exact IHdeep.
    + specialize (Hdeep Hgt).
      destruct (traverse item c) as [[v'|e] c1]; simpl in Hdeep;
        [discriminate|].
      injection Hdeep as ->. split; [lia | reflexivity].
Qed.

Lemma traverseObjectLoop_depth (obj : JsonObject) :
  Forall (fun kv => depthDecides (snd kv)) obj ->
  forall (acc : JsonObject) (c : ReplacementContext),
    depth c <= maxDepth c + 1 ->
    (depth c + Z.of_nat (visitedNesting (JObject obj)) <= maxDepth c + 1 ->
     exists r, fst (traverseObjectLoop traverse obj acc c) = Normal r)
    /\ (maxDepth c + 1 < depth c + Z.of_nat (visitedNesting (JObject obj)) ->
        fst (traverseObjectLoop traverse obj acc c)
        = Throw (DepthLimitExceededError (maxDepth c))).
Proof.
  induction 1 as [|[key value] rest Hitem _ IH]; intros acc c Hc.
  - split; [eexists; reflexivity | simpl; lia].
  - rewrite traverseObjectLoop_cons.
    change (visitedNesting (JObject ((key, value) :: rest)))
      with (if DANGEROUS_KEYS_has key then visitedNesting (JObject rest)
            else Nat.max (S (visitedNesting value))
                   (visitedNesting (JObject rest))).
    destruct (DANGEROUS_KEYS_has key); [apply IH, Hc|].
    simpl in Hitem. destruct (Hitem c) as [Hok Hdeep].
    pose proof (traverse_frame value c) as F.
    destruct (Z.le_gt_cases (depth c + Z.of_nat (visitedNesting value)) (maxDepth c))
      as [Hle|Hgt].
    + destruct (Hok Hle) as [v Hv].
      destruct (traverse value c) as [[v'|e] c1]; simpl in Hv; [|discriminate].
      destruct F as (_ & Fm & Fd & _). simpl in Fm, Fd.
      destruct (IH (obj_set acc key v') c1) as [IHok IHdeep]; [lia|].
      rewrite Fm, Fd in *.
      split; intros Hb; [apply IHok | apply IHdeep]; lia.
    + specialize (Hdeep Hgt).
      destruct (traverse value c) as [[v'|e] c1]; simpl in Hdeep;
        [discriminate|].
      injection Hdeep as ->. split; [lia | reflexivity].
Qed.

Lemma traverse_depth (v : JsonValue) : depthDecides v.
Proof.
  induction v using JsonValue_ind; intros c;
    (destruct (Z.lt_ge_cases (maxDepth c) (depth c)) as [Hdeep|Hok];
     [rewrite traverse_deep by exact Hdeep; split; [lia | reflexivity]|]).
  - rewrite traverse_scalar by (exact Hok || exact I).
    split; [eexists; reflexivity | simpl; lia].
  - rewrite traverse_scalar by (exact Hok || exact I).
    split; [eexists; reflexivity | simpl; lia].
  - rewrite traverse_scalar by (exact Hok || exact I).
    split; [eexists; reflexivity | simpl; lia].
  - rewrite traverse_JString by exact Hok.
    split; [eexists; reflexivity | simpl; lia].
  - rewrite traverse_JArray by exact Hok.
    destruct (traverseArray_depth H (depth_incr c)) as [Ha Hb];
      [simpl; lia|].
    simpl depth in *. simpl maxDepth in *.
    split; intros Hc.
    + destruct Ha as [r Hr]; [lia|].
      destruct (traverseArray arr (depth_incr c)) as [[r'|e] c'];
        simpl in Hr; [|discriminate].
      eexists; reflexivity.
    + specialize (Hb ltac:(lia)).
      destruct (traverseArray arr (depth_incr c)) as [[r'|e] c'];
        simpl in Hb; [discriminate|].
      injection Hb as ->. reflexivity.
  - rewrite traverse_JObject by exact Hok. unfold traverseObject.
    destruct (traverseObjectLoop_depth H [] (depth_incr c)) as [Ha Hb];
      [simpl; lia|].
    simpl depth in *. simpl maxDepth in *.
    split; intros Hc.
    + destruct Ha as [r Hr]; [lia|].
      destruct (traverseObjectLoop traverse obj [] (depth_incr c))
        as [[r'|e] c']; simpl in Hr; [|discriminate].
      eexists; reflexivity.
    + specialize (Hb ltac:(lia)).
      destruct (traverseObjectLoop traverse obj [] (depth_incr c))
        as [[r'|e] c']; simpl in Hb; [discriminate|].
      injection Hb as ->. reflexivity.
Qed.

Lemma visitedNesting_strip (v : JsonValue) :
  visitedNesting v = nesting (stripDangerous v).
Proof.
  induction v using JsonValue_ind; try reflexivity.
  - simpl. induction H as [|x rest Hx _ IH]; simpl; [reflexivity|].
    rewrite Hx, IH. reflexivity.
  - simpl. induction H as [|[k x] rest Hx _ IH]; simpl; [reflexivity|].
    destruct (DANGEROUS_KEYS_has k); simpl; [exact IH|].
    simpl in Hx. rewrite Hx, IH. reflexivity.
Qed.

Lemma stripDangerous_safe (v : JsonValue) :
  noDangerousKeys v = true -> stripDangerous v = v.
Proof.
  induction v using JsonValue_ind; try reflexivity; simpl; intros Hs; f_equal.
  - induction H as [|x rest Hx _ IH]; simpl in *; [reflexivity|].
    apply andb_true_iff in Hs. destruct Hs as [H1 H2].
    rewrite Hx, IH by assumption. reflexivity.
  - induction H as [|[k x] rest Hx _ IH]; simpl in *; [reflexivity|].
    rewrite !andb_true_iff, negb_true_iff in Hs. destruct Hs as [[H1 H2] H3].
    rewrite H1, Hx, IH by assumption. reflexivity.
Qed.

Lemma replaceDogsWithCats_depth (input : JsonValue) (lim maxD : Z) :
  (Z.of_nat (visitedNesting input) <= maxD ->
   exists r, replaceDogsWithCats input lim maxD = Normal r)
  /\ (maxD < Z.of_nat (visitedNesting input) ->
      replaceDogsWithCats input lim maxD
      = Throw (DepthLimitExceededError maxD)).
Proof.
  unfold replaceDogsWithCats.
  destruct (traverse_depth input (mkContext 0 lim 0 maxD)) as [Hok Hdeep].
  simpl in Hok, Hdeep.
  destruct (traverse input (mkContext 0 lim 0 maxD)) as [[r|e] c'];
    simpl in Hok, Hdeep; split; intros H.
  - eexists; reflexivity.
  - specialize (Hdeep H). discriminate.
  - destruct (Hok H) as [r Hr]. discriminate.
  - specialize (Hdeep H). injection Hdeep as ->. reflexivity.
Qed.

(** C2 (amended). Let [D] be the number of nested containers above the
    deepest value that is not under a key of [DANGEROUS_KEYS]: the depth of
    the input once those properties are removed, and the depth of the input
    itself when it has none. With [maxDepth = M >= 1],
    [replaceDogsWithCats] returns a result when [D <= M] and throws
    [DepthLimitExceededError] with [M], and returns no result, when
    [D > M]. *)
Theorem depth_limit_enforced (input : JsonValue) (lim maxD : Z) :
  1 <= maxD ->
  visitedNesting input = nesting (stripDangerous input)
  /\ (noDangerousKeys input = true -> visitedNesting input = nesting input)
  /\ (Z.of_nat (visitedNesting input) <= maxD ->
      exists r, replaceDogsWithCats input lim maxD = Normal r)
  /\ (maxD < Z.of_nat (visitedNesting input) ->
      replaceDogsWithCats input lim maxD
      = Throw (DepthLimitExceededError maxD)).
Proof.
  intros _. split; [apply visitedNesting_strip|]. split.
  - intros Hs. rewrite visitedNesting_strip, stripDangerous_safe by exact Hs.
    reflexivity.
  - apply replaceDogsWithCats_depth.
Qed.

Lemma depth_limit_enforced_witness :
  (exists r,
      replaceDogsWithCats (JArray [JArray [JString (lit "dog")]]) 100 2
      = Normal r)
  /\ replaceDogsWithCats (JArray [JArray [JString (lit "dog")]]) 100 1
     = Throw (DepthLimitExceededError 1).
Proof.
  split.
  - apply (@depth_limit_enforced (JArray [JArray [JString (lit "dog")]]) 100 2);
      simpl; lia.
  - apply (@depth_limit_enforced (JArray [JArray [JString (lit "dog")]]) 100 1);
      simpl; lia.
Defined.

(** The claim C2 as the specification has it fails on
    [{"constructor": [[1]]}] with [maxDepth = 1]: the deepest value is
    below three containers, and the call returns [{}]. *)
Lemma depth_limit_counterexample :
  nesting deepUnderConstructor = 3%nat
  /\ replaceDogsWithCats deepUnderConstructor 100 1
     = Normal (mkResult (JObject []) 0 false)
  /\ ~ (1 < Z.of_nat (nesting deepUnderConstructor) ->
        replaceDogsWithCats deepUnderConstructor 100 1
        = Throw (DepthLimitExceededError 1)).
Proof.
  split; [reflexivity|]. split; [reflexivity|].
  intros H. specialize (H ltac:(simpl; lia)). discriminate.
Qed.

(** ** Dangerous keys *)

Lemma traverseArray_strip (arr : list JsonValue) :
  Forall (fun v => forall c, traverse (stripDangerous v) c = traverse v c) arr ->
  forall c, traverseArray (List.map stripDangerous arr) c = traverseArray arr c.
Proof.
  induction 1 as [|item rest Hitem _ IH]; intros c; [reflexivity|].
  cbn [List.map]. rewrite !traverseArray_cons, Hitem.
  destruct (traverse item c) as [[v|e] c1]; [|reflexivity].
  rewrite IH. reflexivity.
Qed.

Lemma traverseObjectLoop_strip (obj : JsonObject) :
  Forall (fun kv => forall c,
              traverse (stripDangerous (snd kv)) c = traverse (snd kv) c) obj ->
  forall acc c,
    traverseObjectLoop traverse (stripProps stripDangerous obj) acc c
    = traverseObjectLoop traverse obj acc c.
Proof.
  induction 1 as [|[key value] rest Hv _ IH]; intros acc c; [reflexivity|].
  cbn [stripProps]. rewrite (traverseObjectLoop_cons key value).
  destruct (DANGEROUS_KEYS_has key) eqn:E; [apply IH|].
  rewrite traverseObjectLoop_cons, E. simpl in Hv. rewrite Hv.
  destruct (traverse value c) as [[v|e] c1]; [apply IH | reflexivity].
Qed.

(** Nothing under a dangerous key has any part in a traversal. *)
Lemma traverse_strip (v : JsonValue) (c : ReplacementContext) :
  traverse (stripDangerous v) c = traverse v c.
Proof.
  revert c. induction v using JsonValue_ind; intros c; try reflexivity;
    (destruct (Z.lt_ge_cases (maxDepth c) (depth c)) as [Hdeep|Hok];
     [rewrite !traverse_deep by exact Hdeep; reflexivity|]).
  - cbn [stripDangerous]. rewrite !traverse_JArray by exact Hok.
    rewrite traverseArray_strip by exact H. reflexivity.
  - cbn [stripDangerous]. rewrite !traverse_JObject by exact Hok.
    unfold traverseObject. rewrite traverseObjectLoop_strip by exact H.
    reflexivity.
Qed.

Lemma obj_set_safe (acc : JsonObject) (key : jstring) (v : JsonValue) :
  forallb safeEntry acc = true -> safeEntry (key, v) = true ->
  forallb safeEntry (obj_set acc key v) = true.
Proof.
  intros Hacc Hkv. induction acc as [|[k x] acc IH]; simpl in *.
  - rewrite Hkv. reflexivity.
  - apply andb_true_iff in Hacc. destruct Hacc as [H1 H2].
    destruct (jstring_eqb k key) eqn:E; simpl.
    + apply jstring_eqb_eq in E. subst k. rewrite H2, andb_true_r.
      exact Hkv.
    + rewrite H1, (IH H2). reflexivity.
Qed.

Lemma traverseArray_safe (arr : list JsonValue) :
  Forall returnsSafe arr ->
  forall c rs c',
    traverseArray arr c = (Normal rs, c') -> forallb noDangerousKeys rs = true.
Proof.
  induction 1 as [|item rest Hitem _ IH]; intros c rs c'.
  - intros [= <- _]. reflexivity.
  - rewrite traverseArray_cons.
    destruct (traverse item c) as [[v|e] c1] eqn:E; [|discriminate].
    destruct (traverseArray rest c1) as [[vs|e] c2] eqn:E2; [|discriminate].
    intros [= <- _]. simpl. rewrite (Hitem _ _ _ E), (IH _ _ _ E2).
    reflexivity.
Qed.

Lemma traverseObjectLoop_safe (obj : JsonObject) :
  Forall (fun kv => returnsSafe (snd kv)) obj ->
  forall acc c r c',
    forallb safeEntry acc = true ->
    traverseObjectLoop traverse obj acc c = (Normal r, c') ->
    forallb safeEntry r = true.
Proof.
  induction 1 as [|[key value] rest Hv _ IH]; intros acc c r c' Hacc.
  - intros [= <- _]. exact Hacc.
  - rewrite traverseObjectLoop_cons.
    destruct (DANGEROUS_KEYS_has key) eqn:E; [apply IH, Hacc|].
    destruct (traverse value c) as [[v|e] c1] eqn:Ev; [|discriminate].
    apply IH. apply obj_set_safe; [exact Hacc|].
    unfold safeEntry; simpl. rewrite E. exact (Hv _ _ _ Ev).
Qed.

Lemma traverse_safe (v : JsonValue) : returnsSafe v.
Proof.
  induction v using JsonValue_ind; intros c r c';
    (destruct (Z.lt_ge_cases (maxDepth c) (depth c)) as [Hdeep|Hok];
     [rewrite traverse_deep by exact Hdeep; discriminate|]).
  - rewrite traverse_scalar by (exact Hok || exact I).
    intros [= <- _]; reflexivity.
  - rewrite traverse_scalar by (exact Hok || exact I).
    intros [= <- _]; reflexivity.
  - rewrite traverse_scalar by (exact Hok || exact I).
    intros [= <- _]; reflexivity.
  - rewrite traverse_JString by exact Hok. intros [= <- _]; reflexivity.
  - rewrite traverse_JArray by exact Hok.
    destruct (traverseArray arr (depth_incr c)) as [[rs|e] c1] eqn:E;
      [|discriminate].
    intros [= <- _]. exact (traverseArray_safe H _ E).
  - rewrite traverse_JObject by exact Hok. unfold traverseObject.
    destruct (traverseObjectLoop traverse obj [] (depth_incr c))
      as [[rs|e] c1] eqn:E; [|discriminate].
    intros [= <- _]. exact (traverseObjectLoop_safe H [] _ eq_refl E).
Qed.

(** ** Objects with distinct keys *)

Lemma existsb_jstring_eqb (k : jstring) (keys : list jstring) :
  existsb (jstring_eqb k) keys = true <-> In k keys.
Proof.
  rewrite existsb_exists. split.
  - intros (x & Hx & E). apply jstring_eqb_eq in E. subst x. exact Hx.
  - intros Hk. exists k. split; [exact Hk | apply jstring_eqb_eq; reflexivity].
Qed.

Lemma distinct_NoDup (keys : list jstring) :
  distinct keys = true <-> NoDup keys.
Proof.
  induction keys as [|k rest IH]; simpl.
  - split; [constructor | reflexivity].
  - rewrite andb_true_iff, negb_true_iff, IH. split.
    + intros [Hk Hr]. constructor; [|exact Hr].
      intros Hin. apply existsb_jstring_eqb in Hin. congruence.
    + intros Hn. inversion Hn as [|? ? Hk Hr]; subst. split; [|exact Hr].
      destruct (existsb (jstring_eqb k) rest) eqn:E; [|reflexivity].
      apply existsb_jstring_eqb in E. contradiction.
Qed.

Lemma obj_set_fresh (acc : JsonObject) (key : jstring) (v : JsonValue) :
  ~ In key (Object_keys acc) -> obj_set acc key v = acc ++ [(key, v)].
Proof.
  induction acc as [|[k x] acc IH]; simpl; intros Hk; [reflexivity|].
  destruct (jstring_eqb k key) eqn:E.
  - apply jstring_eqb_eq in E. tauto.
  - rewrite IH by tauto. reflexivity.
Qed.

(** On an object with distinct keys, the loop of [traverseObject] adds to
    [result] the safe keys, in their order, each with what [traverse]
    returned for its value, the values being traversed in that order. *)
Lemma traverseObjectLoop_distinct (obj : JsonObject) :
  forall (acc : JsonObject) (c : ReplacementContext),
    NoDup (Object_keys acc ++ Object_keys obj) ->
    traverseObjectLoop traverse obj acc c
    = match traverseArray (List.map snd (safeProps obj)) c with
      | (Normal vs, c') =>
          (Normal (acc ++ combine (Object_keys (safeProps obj)) vs), c')
      | (Throw e, c') => (Throw e, c')
      end.
Proof.
  induction obj as [|[key value] rest IH]; intros acc c Hnd.
  - simpl. rewrite app_nil_r. reflexivity.
  - rewrite traverseObjectLoop_cons. unfold safeProps. cbn [filter fst].
    fold (safeProps rest). simpl in Hnd.
    destruct (DANGEROUS_KEYS_has key) eqn:E; cbn [negb].
    + apply IH. exact (NoDup_remove_1 _ _ _ Hnd).
    + cbn [List.map snd Object_keys fst]. rewrite traverseArray_cons.
      destruct (traverse value c) as [[v|e] c1]; [|reflexivity].
      rewrite obj_set_fresh.
      2:{ intros Hin. apply (NoDup_remove_2 _ _ _ Hnd).
          apply in_or_app. left. exact Hin. }
      rewrite IH.
      2:{ unfold Object_keys in *. rewrite map_app, <- app_assoc. exact Hnd. }
      destruct (traverseArray (List.map snd (safeProps rest)) c1)
        as [[vs|e] c2]; [|reflexivity].
      rewrite <- app_assoc. reflexivity.
Qed.

(** C5. Whatever [replaceDogsWithCats] does on an input, it does on the
    input without its properties under dangerous keys: result, count and
    error are the same, so nothing below a dangerous key is replaced or
    counted. A result it returns has no dangerous key in any object. On an
    object with distinct keys, [traverseObject] returns the other keys, in
    their order, each with the value [traverse] returned for it. *)
Theorem dangerous_keys_dropped :
  (forall (input : JsonValue) (lim maxD : Z),
      replaceDogsWithCats input lim maxD
      = replaceDogsWithCats (stripDangerous input) lim maxD)
  /\ (forall (input : JsonValue) (lim maxD : Z) (r : ReplacementResult),
        replaceDogsWithCats input lim maxD = Normal r ->
        noDangerousKeys (result r) = true)
  /\ (forall (obj : JsonObject) (c : ReplacementContext),
        distinct (Object_keys obj) = true ->
        traverseObject obj c
        = match traverseArray (List.map snd (safeProps obj)) c with
          | (Normal vs, c') =>
              (Normal (combine (Object_keys (safeProps obj)) vs), c')
          | (Throw e, c') => (Throw e, c')
          end).
Proof.
  split; [|split].
  - intros input lim maxD. unfold replaceDogsWithCats.
    rewrite traverse_strip. reflexivity.
  - intros input lim maxD r. unfold replaceDogsWithCats.
    destruct (traverse input (mkContext 0 lim 0 maxD)) as [[res|e] c'] eqn:E;
      [|discriminate].
    intros [= <-]. exact (@traverse_safe input _ _ _ E).
  - intros obj c Hd. apply distinct_NoDup in Hd.
    unfold traverseObject. rewrite traverseObjectLoop_distinct by exact Hd.
    reflexivity.
Qed.

Lemma dangerous_keys_dropped_witness :
  noDangerousKeys
    (result (mkResult (JObject [(lit "safe", JString (lit "cat"))]) 1 false))
  = true
  /\ traverseObject
       [(lit "__proto__", JObject [(lit "x", JString (lit "dog"))]);
        (lit "safe", JString (lit "dog"))] (mkContext 0 100 1 100)
     = (Normal [(lit "safe", JString (lit "cat"))], mkContext 1 100 1 100).
Proof.
  destruct dangerous_keys_dropped as (_ & Hsafe & Hkeys). split.
  - apply (Hsafe
             (JObject
                [(lit "__proto__", JObject [(lit "x", JString (lit "dog"))]);
                 (lit "safe", JString (lit "dog"))]) 100 100).
    reflexivity.
  - rewrite Hkeys by reflexivity. reflexivity.
Defined.

(** ** Traversals that replace nothing *)

Lemma depth_round_trip (c : ReplacementContext) :
  depth_decr (depth_incr c) = c.
Proof. destruct c. unfold depth_decr, depth_incr; simpl. f_equal. lia. Qed.

Lemma visitedNesting_element (x : JsonValue) (arr : list JsonValue) :
  In x arr -> (S (visitedNesting x) <= visitedNesting (JArray arr))%nat.
Proof.
  induction arr as [|y rest IH]; [intros []|].
  change (visitedNesting (JArray (y :: rest)))
    with (Nat.max (S (visitedNesting y)) (visitedNesting (JArray rest))).
  intros [->|Hin]; [lia|]. specialize (IH Hin). lia.
Qed.

Lemma visitedNesting_property (k : jstring) (x : JsonValue) (obj : JsonObject) :
  In (k, x) obj -> DANGEROUS_KEYS_has k = false ->
  (S (visitedNesting x) <= visitedNesting (JObject obj))%nat.
Proof.
  induction obj as [|[k' y] rest IH]; [intros []|].
  change (visitedNesting (JObject ((k', y) :: rest)))
    with (if DANGEROUS_KEYS_has k' then visitedNesting (JObject rest)
          else Nat.max (S (visitedNesting y)) (visitedNesting (JObject rest))).
  intros [[= -> ->]|Hin] Hk.
  - rewrite Hk. lia.
  - specialize (IH Hin Hk). destruct (DANGEROUS_KEYS_has k'); lia.
Qed.

Lemma traverseArray_identity (arr : list JsonValue) (c : ReplacementContext) :
  Forall (fun x => traverse x c = (Normal (stripDangerous x), c)) arr ->
  traverseArray arr c = (Normal (List.map stripDangerous arr), c).
Proof.
  induction 1 as [|item rest Hitem _ IH]; [reflexivity|].
  rewrite traverseArray_cons, Hitem, IH. reflexivity.
Qed.

Lemma traverseObjectLoop_identity (obj : JsonObject) (c : ReplacementContext) :
  Forall (fun kv => DANGEROUS_KEYS_has (fst kv) = false ->
                    traverse (snd kv) c = (Normal (stripDangerous (snd kv)), c))
    obj ->
  forall acc,
    NoDup (Object_keys acc ++ Object_keys obj) ->
    traverseObjectLoop traverse obj acc c
    = (Normal (acc ++ stripProps stripDangerous obj), c).
Proof.
  induction 1 as [|[key value] rest Hv _ IH]; intros acc Hnd.
  - simpl. rewrite app_nil_r. reflexivity.
  - rewrite traverseObjectLoop_cons. cbn [stripProps]. simpl in Hnd, Hv.
    destruct (DANGEROUS_KEYS_has key) eqn:E.
    + apply IH. exact (NoDup_remove_1 _ _ _ Hnd).
    + rewrite (Hv eq_refl), obj_set_fresh.
      2:{ intros Hin. apply (NoDup_remove_2 _ _ _ Hnd).
          apply in_or_app. left. exact Hin. }
      rewrite IH.
      2:{ unfold Object_keys in *. rewrite map_app, <- app_assoc. exact Hnd. }
      rewrite <- app_assoc. reflexivity.
Qed.

Lemma traverse_identity (v : JsonValue) :
  forall c : ReplacementContext,
    uniqueKeys v = true ->
    nothingToReplace c v ->
    depth c + Z.of_nat (visitedNesting v) <= maxDepth c ->
    traverse v c = (Normal (stripDangerous v), c).
Proof.
  induction v using JsonValue_ind; intros c Hu Hq Hd.
  - apply traverse_scalar; [simpl in Hd; lia | exact I].
  - apply traverse_scalar; [simpl in Hd; lia | exact I].
  - apply traverse_scalar; [simpl in Hd; lia | exact I].
  - rewrite traverse_JString by (simpl in Hd; lia).
    assert (Hk : Nat.min (length (matchPositions s)) (budget c) = 0%nat).
    { destruct Hq as [Hq|Hq].
      - unfold budget. replace (Z.to_nat (limit c - count c)) with 0%nat by lia.
        apply Nat.min_0_r.
      - simpl in Hq. destruct (matchPositions s); [reflexivity|discriminate]. }
    rewrite Hk, count_add_0. reflexivity.
  - rewrite traverse_JArray by lia. cbn [stripDangerous].
    rewrite traverseArray_identity, depth_round_trip; [reflexivity|].
    simpl in Hu. rewrite forallb_forall in Hu.
    rewrite Forall_forall in H |- *. intros x Hx.
    apply (H x Hx); [exact (Hu x Hx)| |].
    + destruct Hq as [Hq|Hq]; [left; exact Hq | right].
      simpl in Hq. rewrite forallb_forall in Hq. exact (Hq x Hx).
    + pose proof (visitedNesting_element _ _ Hx). simpl depth. simpl maxDepth.
      lia.
  - rewrite traverse_JObject by lia. cbn [stripDangerous]. unfold traverseObject.
    simpl in Hu. apply andb_true_iff in Hu. destruct Hu as [Hnd Hu].
    apply distinct_NoDup in Hnd. rewrite forallb_forall in Hu.
    rewrite traverseObjectLoop_identity, depth_round_trip;
      [reflexivity| |exact Hnd].
    rewrite Forall_forall in H |- *. intros [k x] Hx Hk. simpl in Hk |- *.
    apply (H (k, x) Hx); [exact (Hu (k, x) Hx)| |].
    + destruct Hq as [Hq|Hq]; [left; exact Hq | right].
      simpl in Hq. rewrite forallb_forall in Hq. exact (Hq (k, x) Hx).
    + pose proof (visitedNesting_property _ _ _ Hx Hk). simpl depth.
      simpl maxDepth. cbn [snd]. lia.
Qed.

(** C7. With a limit of 0, a result that [replaceDogsWithCats] returns has
    [replacements = 0] and [limitReached = true], whatever the input holds.
    On an input with distinct keys within the depth limit it returns the
    input without its dangerous properties (the input itself when it has
    none), so every string it returns is unchanged. *)
Theorem limit_zero_replaces_nothing :
  (forall (input : JsonValue) (maxD : Z) (r : ReplacementResult),
      replaceDogsWithCats input 0 maxD = Normal r ->
      replacements r = 0 /\ limitReached r = true)
  /\ (forall (input : JsonValue) (maxD : Z),
        uniqueKeys input = true ->
        Z.of_nat (visitedNesting input) <= maxD ->
        replaceDogsWithCats input 0 maxD
        = Normal (mkResult (stripDangerous input) 0 true)
        /\ (noDangerousKeys input = true ->
            replaceDogsWithCats input 0 maxD = Normal (mkResult input 0 true))).
Proof.
  split.
  - intros input maxD r. unfold replaceDogsWithCats.
    pose proof (traverse_frame input (mkContext 0 0 0 maxD)) as F.
    destruct (traverse input (mkContext 0 0 0 maxD)) as [[res|e] c'];
      [|discriminate].
    intros [= <-]. unfold frame in F. simpl in *.
    destruct F as (-> & _ & _ & H0 & Hle).
    assert (E : count c' = 0) by lia. rewrite E. split; reflexivity.
  - intros input maxD Hu Hd.
    assert (E : replaceDogsWithCats input 0 maxD
                = Normal (mkResult (stripDangerous input) 0 true)).
    { unfold replaceDogsWithCats.
      rewrite traverse_identity;
        [reflexivity | exact Hu | left; simpl; lia | simpl; lia]. }
    split; [exact E|].
    intros Hs. rewrite E, stripDangerous_safe by exact Hs. reflexivity.
Qed.

Lemma limit_zero_replaces_nothing_witness :
  (replacements
     (mkResult
        (JObject [(lit "a", JString (lit "dog"));
                  (lit "b", JArray [JString (lit "dog")])]) 0 true) = 0
   /\ limitReached
        (mkResult
           (JObject [(lit "a", JString (lit "dog"));
                     (lit "b", JArray [JString (lit "dog")])]) 0 true) = true)
  /\ replaceDogsWithCats
       (JObject [(lit "a", JString (lit "dog"));
                 (lit "b", JArray [JString (lit "dog")])])
       0 100
     = Normal
         (mkResult
            (JObject [(lit "a", JString (lit "dog"));
                      (lit "b", JArray [JString (lit "dog")])])
            0 true).
Proof.
  destruct limit_zero_replaces_nothing as [Hcount Hresult]. split.
  - apply (Hcount
             (JObject [(lit "a", JString (lit "dog"));
                       (lit "b", JArray [JString (lit "dog")])]) 100).
    reflexivity.
  - refine (proj1 (Hresult
                     (JObject [(lit "a", JString (lit "dog"));
                               (lit "b", JArray [JString (lit "dog")])])
                     100 _ _));
      [reflexivity | simpl; lia].
Defined.

(** C8 (amended). On an input with distinct keys, no whole-word occurrence
    of the source word in its strings, and within the depth limit,
    [replaceDogsWithCats] returns the input without its properties under
    dangerous keys, which is the input itself when it has none;
    [replacements] is 0, and [limitReached] is false when [limit > 0]. *)
Theorem no_occurrence_round_trip (input : JsonValue) (lim maxD : Z) :
  uniqueKeys input = true ->
  noSourceWord input = true ->
  Z.of_nat (visitedNesting input) <= maxD ->
  replaceDogsWithCats input lim maxD
  = Normal (mkResult (stripDangerous input) 0 (0 >=? lim))
  /\ (noDangerousKeys input = true ->
      replaceDogsWithCats input lim maxD
      = Normal (mkResult input 0 (0 >=? lim)))
  /\ (0 < lim -> (0 >=? lim) = false).
Proof.
  intros Hu Hn Hd.
  assert (E : replaceDogsWithCats input lim maxD
              = Normal (mkResult (stripDangerous input) 0 (0 >=? lim))).
  { unfold replaceDogsWithCats.
    rewrite traverse_identity;
      [reflexivity | exact Hu | right; exact Hn | simpl; lia]. }
  split; [exact E|]. split.
  - intros Hs. rewrite E, stripDangerous_safe by exact Hs. reflexivity.
  - intros Hl. destruct (Z.geb_spec 0 lim); [lia | reflexivity].
Qed.

Lemma no_occurrence_round_trip_witness :
  replaceDogsWithCats
    (JObject [(lit "name", JString (lit "fluffy")); (lit "age", JNumber 5%float)])
    100 100
  = Normal
      (mkResult
         (JObject [(lit "name", JString (lit "fluffy")); (lit "age", JNumber 5%float)])
         0 false).
Proof.
  refine (proj1 (@no_occurrence_round_trip
                   (JObject [(lit "name", JString (lit "fluffy"));
                             (lit "age", JNumber 5%float)])
                   100 100 _ _ _));
    [reflexivity | reflexivity | simpl; lia].
Defined.

(** The claim C8 as the specification has it fails on [{"constructor": 1}]:
    no string holds the source word and the depth is within the limit, yet
    the result is [{}], not the input. *)
Lemma no_occurrence_counterexample :
  noSourceWord constructorOnly = true
  /\ Z.of_nat (nesting constructorOnly) <= 100
  /\ replaceDogsWithCats constructorOnly 100 100
     = Normal (mkResult (JObject []) 0 false)
  /\ replaceDogsWithCats constructorOnly 100 100
     <> Normal (mkResult constructorOnly 0 false).
Proof.
  split; [reflexivity|]. split; [simpl; lia|]. split; [reflexivity|].
  discriminate.
Qed.

(** ** [safeJsonParse] *)

Lemma safeObjLoop_safe (props : JsonObject) :
  Forall (fun kv => noDangerousKeys (snd kv) = true) props ->
  forall acc,
    forallb safeEntry acc = true ->
    forallb safeEntry (safeObjLoop props acc) = true.
Proof.
  induction 1 as [|[k v] rest Hv _ IH]; intros acc Hacc; [exact Hacc|].
  cbn [safeObjLoop]. destruct (DANGEROUS_KEYS_has k) eqn:E; cbn [negb].
  - apply IH, Hacc.
  - apply IH, obj_set_safe; [exact Hacc|].
    unfold safeEntry; simpl. rewrite E. exact Hv.
Qed.

Lemma reviver_safe (name : jstring) (v : JsonValue) :
  match v with
  | JObject props => Forall (fun kv => noDangerousKeys (snd kv) = true) props
  | _ => noDangerousKeys v = true
  end ->
  noDangerousKeys (reviver name v) = true.
Proof.
  destruct v; try (intros H; exact H).
  intros H. exact (safeObjLoop_safe H [] eq_refl).
Qed.

Lemma internalize_safe (v : JsonValue) :
  forall name, noDangerousKeys (internalize reviver name v) = true.
Proof.
  induction v using JsonValue_ind; intros name; try reflexivity.
  - cbn [internalize]. apply reviver_safe. cbn [noDangerousKeys].
    generalize 0%nat.
    induction H as [|x rest Hx _ IH]; intros i; [reflexivity|].
    cbn [internalizeElements forallb]. rewrite Hx, IH. reflexivity.
  - cbn [internalize]. apply reviver_safe.
    induction H as [|[k x] rest Hx _ IH]; cbn [internalizeProperties];
      constructor; [apply Hx | exact IH].
Qed.

(** C6. Whatever the grammar of the host's parser, a value that
    [safeJsonParse] returns has no key of [DANGEROUS_KEYS] in any object,
    at the root, below objects and below arrays. *)
Theorem safeJsonParse_no_dangerous_key
    (parseText : jstring -> option JsonValue) (json : jstring)
    (v : JsonValue) :
  safeJsonParse parseText json = Some v -> noDangerousKeys v = true.
Proof.
  unfold safeJsonParse, JSON_parse.
  destruct (parseText json) as [unfiltered|]; [|discriminate].
  intros [= <-]. apply internalize_safe.
Qed.

Lemma safeJsonParse_no_dangerous_key_witness :
  noDangerousKeys (JObject [(lit "safe", JString (lit "dog"))]) = true.
Proof.
  apply (@safeJsonParse_no_dangerous_key parsePolluted pollutedText).
  reflexivity.
Defined.

(** ** Cases of the test suite *)

Example replaceInString_ex :
  replaceInString (lit "dog dog dog dog dog") (mkContext 0 3 0 100)
  = (Normal (lit "cat cat cat dog dog"), mkContext 3 3 0 100).
Proof. reflexivity. Qed.

Example punctuation_ex :
  replaceDogsWithCats (JString (lit "dog! dog? dog. dog, dog; dog:")) 100 100
  = Normal (mkResult (JString (lit "cat! cat? cat. cat, cat; cat:")) 6 false).
Proof. reflexivity. Qed.

Example compound_words_ex :
  replaceDogsWithCats
    (JArray [JString (lit "doghouse"); JString (lit "hotdog");
             JString (lit "dog-friendly"); JString (lit "dog123")]) 100 100
  = Normal
      (mkResult
         (JArray [JString (lit "doghouse"); JString (lit "hotdog");
                  JString (lit "cat-friendly"); JString (lit "dog123")])
         1 false).
Proof. reflexivity. Qed.

Example key_preserved_ex :
  replaceDogsWithCats (JObject [(lit "dog", JString (lit "dog"))]) 100 100
  = Normal (mkResult (JObject [(lit "dog", JString (lit "cat"))]) 1 false).
Proof. reflexivity. Qed.

Example shared_budget_ex :
  replaceDogsWithCats
    (JObject [(lit "a", JString (lit "dog"));
              (lit "b", JArray [JString (lit "dog"); JString (lit "dog")]);
              (lit "c", JObject [(lit "d", JString (lit "dog"))])]) 3 100
  = Normal
      (mkResult
         (JObject [(lit "a", JString (lit "cat"));
                   (lit "b", JArray [JString (lit "cat"); JString (lit "cat")]);
                   (lit "c", JObject [(lit "d", JString (lit "dog"))])])
         3 true).
Proof. reflexivity. Qed.

Example abort_restores_depth_ex :
  traverse (JArray [JString (lit "dog"); JArray [JNull]]) (mkContext 0 5 0 1)
  = (Throw (DepthLimitExceededError 1), mkContext 1 5 0 1).
Proof. reflexivity. Qed.

Example safeJsonParse_ex :
  safeJsonParse parsePolluted pollutedText
  = Some (JObject [(lit "safe", JString (lit "dog"))]).
Proof. reflexivity. Qed.

(** ** How many replacements a traversal makes *)

(** The number of whole-word occurrences of the source word in the strings
    [traverse] visits, those under a dangerous key left out. *)
Fixpoint occurrences (v : JsonValue) : nat :=
  match v with
  | JString s => length (matchPositions s)
  | JArray arr => fold_right (fun x acc => (occurrences x + acc)%nat) 0%nat arr
  | JObject obj =>
      fold_right (fun kv acc =>
                    if DANGEROUS_KEYS_has (fst kv) then acc
                    else (occurrences (snd kv) + acc)%nat) 0%nat obj
  | _ => 0%nat
  end.

(** A traversal of [v] that returns has counted as many replacements as
    [v] has occurrences, or as the budget allowed. *)
Definition countsOccurrences (v : JsonValue) : Prop :=
  forall c r c',
    traverse v c = (Normal r, c') ->
    c' = count_add c (Nat.min (occurrences v) (budget c)).

Lemma budget_count_add (c : ReplacementContext) (k : nat) :
  (k <= budget c)%nat -> budget (count_add c k) = (budget c - k)%nat.
Proof. unfold budget, count_add; simpl. lia. Qed.

Lemma count_add_add (c : ReplacementContext) (j k : nat) :
  count_add (count_add c j) k = count_add c (j + k).
Proof. unfold count_add; simpl. f_equal. lia. Qed.

Lemma count_add_depth_incr (c : ReplacementContext) (k : nat) :
  depth_decr (count_add (depth_incr c) k) = count_add c k.
Proof.
  unfold depth_decr, depth_incr, count_add; simpl. f_equal. lia.
Qed.

Lemma traverseArray_count (arr : list JsonValue) :
  Forall countsOccurrences arr ->
  forall c rs c',
    traverseArray arr c = (Normal rs, c') ->
    c' = count_add c (Nat.min (occurrences (JArray arr)) (budget c)).
Proof.
  induction 1 as [|item rest Hitem _ IH]; intros c rs c'.
  - intros [= _ <-]. simpl. symmetry. apply count_add_0.
  - rewrite traverseArray_cons.
    change (occurrences (JArray (item :: rest)))
      with (occurrences item + occurrences (JArray rest))%nat.
    destruct (traverse item c) as [[v|e] c1] eqn:E; [|discriminate].
    destruct (traverseArray rest c1) as [[vs|e] c2] eqn:E2; [|discriminate].
    intros [= _ <-]. rewrite (IH _ _ _ E2), (Hitem _ _ _ E).
    rewrite budget_count_add by apply Nat.le_min_r.
    rewrite count_add_add. f_equal. lia.
Qed.

Lemma traverseObjectLoop_count (obj : JsonObject) :
  Forall (fun kv => countsOccurrences (snd kv)) obj ->
  forall acc c r c',
    traverseObjectLoop traverse obj acc c = (Normal r, c') ->
    c' = count_add c (Nat.min (occurrences (JObject obj)) (budget c)).
Proof.
  induction 1 as [|[key value] rest Hv _ IH]; intros acc c r c'.
  - intros [= _ <-]. simpl. symmetry. apply count_add_0.
  - rewrite traverseObjectLoop_cons.
    change (occurrences (JObject ((key, value) :: rest)))
      with (if DANGEROUS_KEYS_has key then occurrences (JObject rest)
            else (occurrences value + occurrences (JObject rest))%nat).
    destruct (DANGEROUS_KEYS_has key); [apply IH|].
    destruct (traverse value c) as [[v|e] c1] eqn:E; [|discriminate].
    intros E2. rewrite (IH _ _ _ _ E2). simpl in Hv. rewrite (Hv _ _ _ E).
    rewrite budget_count_add by apply Nat.le_min_r.
    rewrite count_add_add. f_equal. lia.
Qed.

Lemma traverse_count (v : JsonValue) : countsOccurrences v.
Proof.
  induction v using JsonValue_ind; intros c r c';
    (destruct (Z.lt_ge_cases (maxDepth c) (depth c)) as [Hdeep|Hok];
     [rewrite traverse_deep by exact Hdeep; discriminate|]).
  - rewrite traverse_scalar by (exact Hok || exact I).
    intros [= _ <-]. symmetry. apply count_add_0.
  - rewrite traverse_scalar by (exact Hok || exact I).
    intros [= _ <-]. symmetry. apply count_add_0.
  - rewrite traverse_scalar by (exact Hok || exact I).
    intros [= _ <-]. symmetry. apply count_add_0.
  - rewrite traverse_JString by exact Hok. intros [= _ <-]. reflexivity.
  - rewrite traverse_JArray by exact Hok.
    destruct (traverseArray arr (depth_incr c)) as [[rs|e] c1] eqn:E;
      [|discriminate].
    intros [= _ <-]. rewrite (traverseArray_count H _ E).
    apply count_add_depth_incr.
  - rewrite traverse_JObject by exact Hok. unfold traverseObject.
    destruct (traverseObjectLoop traverse obj [] (depth_incr c))
      as [[rs|e] c1] eqn:E; [|discriminate].
    intros [= _ <-]. rewrite (traverseObjectLoop_count H _ _ E).
    apply count_add_depth_incr.
Qed.

Lemma replaceDogsWithCats_replacements (input : JsonValue) (lim maxD : Z)
    (r : ReplacementResult) :
  0 <= lim ->
  replaceDogsWithCats input lim maxD = Normal r ->
  replacements r = Z.min (Z.of_nat (occurrences input)) lim
  /\ (limitReached r = true <-> lim <= Z.of_nat (occurrences input)).
Proof.
  intros Hlim. unfold replaceDogsWithCats.
  destruct (traverse input (mkContext 0 lim 0 maxD)) as [[res|e] c'] eqn:E;
    [|discriminate].
  intros [= <-]. rewrite (@traverse_count input _ _ _ E). unfold budget; simpl.
  rewrite Z.sub_0_r. split; [lia|].
  destruct (Z.geb_spec (Z.of_nat (Nat.min (occurrences input) (Z.to_nat lim))) lim);
    split; intros; try reflexivity; try discriminate; lia.
Qed.

(** X1. A result of [replaceDogsWithCats] with [limit >= 0] reports the
    number of whole-word occurrences in the visited strings, or the limit
    when there are more; [limitReached] says that the occurrences are at
    least the limit. *)
Theorem replacements_count_occurrences (input : JsonValue) (lim maxD : Z)
    (r : ReplacementResult) :
  0 <= lim ->
  replaceDogsWithCats input lim maxD = Normal r ->
  replacements r = Z.min (Z.of_nat (occurrences input)) lim
  /\ (limitReached r = true <-> lim <= Z.of_nat (occurrences input)).
Proof. apply replaceDogsWithCats_replacements. Qed.

Lemma replacements_count_occurrences_witness :
  replacements
    (mkResult (JArray [JString (lit "cat cat"); JString (lit "cat dog")]) 3 true)
  = Z.min (Z.of_nat (occurrences
                       (JArray [JString (lit "dog dog"); JString (lit "dog dog")])))
      3
  /\ (limitReached
        (mkResult (JArray [JString (lit "cat cat"); JString (lit "cat dog")]) 3 true)
      = true
      <-> 3 <= Z.of_nat (occurrences
                           (JArray [JString (lit "dog dog"); JString (lit "dog dog")]))).
Proof.
  apply (@replacements_count_occurrences
           (JArray [JString (lit "dog dog"); JString (lit "dog dog")]) 3 100);
    [lia | reflexivity].
Defined.

(** ** What a traversal keeps of the input *)

(** [v] with every code unit of every string blanked: what is left is the
    nesting, the arrays with their lengths and order, the keys with their
    order, the numbers, booleans and nulls, and the length of each
    string. *)
Fixpoint skeleton (v : JsonValue) : JsonValue :=
  match v with
  | JString s => JString (repeat 0%N (length s))
  | JArray arr => JArray (List.map skeleton arr)
  | JObject obj => JObject (List.map (fun kv => (fst kv, skeleton (snd kv))) obj)
  | _ => v
  end.

Definition keepsSkeleton (v : JsonValue) : Prop :=
  uniqueKeys v = true ->
  forall c r c',
    traverse v c = (Normal r, c') ->
    skeleton r = skeleton (stripDangerous v).

Lemma replaceLoop_length (s : jstring) (p li : nat) (res : jstring)
    (c : ReplacementContext) :
  (li <= p)%nat ->
  length (fst (replaceLoop s p li res c))
  = (length res + (length s - li))%nat.
Proof.
  funelim (replaceLoop s p li res c); intros Hli.
  - clear Heqcall. destruct (exec_some _ _ Hexec) as [Hle Hm].
    pose proof (matchesAt_inside _ _ Hm) as Hin. simpl in Hin.
    destruct (count context >=? limit context).
    + simpl. unfold sliceFrom. rewrite length_app, length_skipn. reflexivity.
    + rewrite H by lia. unfold slice.
      rewrite !length_app, length_firstn, length_skipn. simpl. lia.
  - simpl. unfold sliceFrom. rewrite length_app, length_skipn. reflexivity.
Qed.

Lemma replaceInString_length (s : jstring) (c : ReplacementContext) :
  exists s' c', replaceInString s c = (Normal s', c') /\ length s' = length s.
Proof.
  unfold replaceInString. destruct (count c >=? limit c).
  - exists s, c. split; reflexivity.
  - pose proof (@replaceLoop_length s 0 0 [] c (Nat.le_refl 0)) as H.
    destruct (replaceLoop s 0 0 [] c) as [r c']. exists r, c'.
    split; [reflexivity|]. simpl in H. lia.
Qed.

Lemma traverseArray_skeleton (arr : list JsonValue) :
  Forall keepsSkeleton arr ->
  forallb uniqueKeys arr = true ->
  forall c rs c',
    traverseArray arr c = (Normal rs, c') ->
    List.map skeleton rs = List.map skeleton (List.map stripDangerous arr).
Proof.
  induction 1 as [|item rest Hitem _ IH]; intros Hu c rs c'.
  - intros [= <- _]. reflexivity.
  - simpl in Hu. apply andb_true_iff in Hu. destruct Hu as [Hu1 Hu2].
    rewrite traverseArray_cons.
    destruct (traverse item c) as [[v|e] c1] eqn:E; [|discriminate].
    destruct (traverseArray rest c1) as [[vs|e] c2] eqn:E2; [|discriminate].
    intros [= <- _]. simpl.
    rewrite (Hitem Hu1 _ _ _ E), (IH Hu2 _ _ _ E2). reflexivity.
Qed.

Lemma traverseObjectLoop_skeleton (obj : JsonObject) :
  Forall (fun kv => keepsSkeleton (snd kv)) obj ->
  forallb (fun kv => uniqueKeys (snd kv)) obj = true ->
  forall acc c r c',
    NoDup (Object_keys acc ++ Object_keys obj) ->
    traverseObjectLoop traverse obj acc c = (Normal r, c') ->
    List.map (fun kv => (fst kv, skeleton (snd kv))) r
    = List.map (fun kv => (fst kv, skeleton (snd kv))) acc
      ++ List.map (fun kv => (fst kv, skeleton (snd kv)))
           (stripProps stripDangerous obj).
Proof.
  induction 1 as [|[key value] rest Hv _ IH]; intros Hu acc c r c' Hnd.
  - intros [= <- _]. simpl. rewrite app_nil_r. reflexivity.
  - simpl in Hu. apply andb_true_iff in Hu. destruct Hu as [Hu1 Hu2].
    rewrite traverseObjectLoop_cons. cbn [stripProps]. simpl in Hnd, Hv.
    destruct (DANGEROUS_KEYS_has key) eqn:E.
    + apply (IH Hu2). exact (NoDup_remove_1 _ _ _ Hnd).
    + destruct (traverse value c) as [[v|e] c1] eqn:Ev; [|discriminate].
      rewrite obj_set_fresh.
      2:{ intros Hin. apply (NoDup_remove_2 _ _ _ Hnd).
          apply in_or_app. left. exact Hin. }
      intros E2. apply (IH Hu2) in E2.
      2:{ unfold Object_keys in *. rewrite map_app, <- app_assoc. exact Hnd. }
      rewrite E2, map_app, <- app_assoc. simpl.
      rewrite (Hv Hu1 _ _ _ Ev). reflexivity.
Qed.

Lemma traverse_skeleton (v : JsonValue) : keepsSkeleton v.
Proof.
  induction v using JsonValue_ind; intros Hu c r c';
    (destruct (Z.lt_ge_cases (maxDepth c) (depth c)) as [Hdeep|Hok];
     [rewrite traverse_deep by exact Hdeep; discriminate|]).
  - rewrite traverse_scalar by (exact Hok || exact I).
    intros [= <- _]. reflexivity.
  - rewrite traverse_scalar by (exact Hok || exact I).
    intros [= <- _]. reflexivity.
  - rewrite traverse_scalar by (exact Hok || exact I).
    intros [= <- _]. reflexivity.
  - destruct (replaceInString_length s c) as (s' & c1 & E & Hlen).
    unfold traverse, bind, get; simpl.
    destruct (Z.gtb_spec (depth c) (maxDepth c)); try lia.
    rewrite E. intros [= <- _]. simpl. rewrite Hlen. reflexivity.
  - rewrite traverse_JArray by exact Hok.
    destruct (traverseArray arr (depth_incr c)) as [[rs|e] c1] eqn:E;
      [|discriminate].
    intros [= <- _]. simpl. f_equal.
    exact (traverseArray_skeleton H Hu _ E).
  - rewrite traverse_JObject by exact Hok. unfold traverseObject.
    simpl in Hu. apply andb_true_iff in Hu. destruct Hu as [Hnd Hu].
    apply distinct_NoDup in Hnd.
    destruct (traverseObjectLoop traverse obj [] (depth_incr c))
      as [[rs|e] c1] eqn:E; [|discriminate].
    intros [= <- _]. simpl. f_equal.
    exact (traverseObjectLoop_skeleton H Hu [] _ Hnd E).
Qed.

(** X2. On an input with distinct keys, a result of [replaceDogsWithCats]
    differs from the input without its dangerous properties in the code
    units of strings only: nesting, array lengths and order, keys and their
    order, numbers, booleans, nulls and the length of every string are
    those of the input. *)
Theorem result_keeps_skeleton (input : JsonValue) (lim maxD : Z)
    (r : ReplacementResult) :
  uniqueKeys input = true ->
  replaceDogsWithCats input lim maxD = Normal r ->
  skeleton (result r) = skeleton (stripDangerous input).
Proof.
  intros Hu. unfold replaceDogsWithCats.
  destruct (traverse input (mkContext 0 lim 0 maxD)) as [[res|e] c'] eqn:E;
    [|discriminate].
  intros [= <-]. exact (@traverse_skeleton input Hu _ _ _ E).
Qed.

Lemma result_keeps_skeleton_witness :
  skeleton
    (result
       (mkResult
          (JObject [(lit "a", JString (lit "cat"));
                    (lit "b", JArray [JNumber 1%float; JString (lit "cat dog")])])
          2 true))
  = skeleton
      (stripDangerous
         (JObject [(lit "a", JString (lit "dog"));
                   (lit "prototype", JString (lit "dog"));
                   (lit "b", JArray [JNumber 1%float; JString (lit "dog dog")])])).
Proof.
  apply (@result_keeps_skeleton
           (JObject [(lit "a", JString (lit "dog"));
                     (lit "prototype", JString (lit "dog"));
                     (lit "b", JArray [JNumber 1%float; JString (lit "dog dog")])])
           2 100);
    reflexivity.
Defined.

(** ** What [safeJsonParse] returns *)

Definition revivedIsStripped (v : JsonValue) : Prop :=
  uniqueKeys v = true ->
  forall name, internalize reviver name v = stripDangerous v.

Lemma internalizeElements_strip (elems : list JsonValue) :
  Forall revivedIsStripped elems ->
  forallb uniqueKeys elems = true ->
  forall i,
    internalizeElements (internalize reviver) i elems
    = List.map stripDangerous elems.
Proof.
  induction 1 as [|e rest He _ IH]; intros Hu i; [reflexivity|].
  simpl in Hu. apply andb_true_iff in Hu. destruct Hu as [Hu1 Hu2].
  cbn [internalizeElements List.map]. rewrite (He Hu1), (IH Hu2).
  reflexivity.
Qed.

Lemma safeObjLoop_strip (obj : JsonObject) :
  Forall (fun kv => revivedIsStripped (snd kv)) obj ->
  forallb (fun kv => uniqueKeys (snd kv)) obj = true ->
  forall acc,
    NoDup (Object_keys acc ++ Object_keys obj) ->
    safeObjLoop (internalizeProperties (internalize reviver) obj) acc
    = acc ++ stripProps stripDangerous obj.
Proof.
  induction 1 as [|[k x] rest Hx _ IH]; intros Hu acc Hnd.
  - simpl. rewrite app_nil_r. reflexivity.
  - simpl in Hu. apply andb_true_iff in Hu. destruct Hu as [Hu1 Hu2].
    cbn [internalizeProperties safeObjLoop stripProps]. simpl in Hnd, Hx.
    destruct (DANGEROUS_KEYS_has k) eqn:E; cbn [negb].
    + apply (IH Hu2). exact (NoDup_remove_1 _ _ _ Hnd).
    + rewrite obj_set_fresh.
      2:{ intros Hin. apply (NoDup_remove_2 _ _ _ Hnd).
          apply in_or_app. left. exact Hin. }
      rewrite (IH Hu2).
      2:{ unfold Object_keys in *. rewrite map_app, <- app_assoc. exact Hnd. }
      rewrite (Hx Hu1), <- app_assoc. reflexivity.
Qed.

Lemma internalize_strip (v : JsonValue) : revivedIsStripped v.
Proof.
  induction v using JsonValue_ind; intros Hu name; try reflexivity.
  - cbn [internalize stripDangerous reviver].
    rewrite (internalizeElements_strip H Hu). reflexivity.
  - cbn [internalize stripDangerous reviver].
    simpl in Hu. apply andb_true_iff in Hu. destruct Hu as [Hnd Hu].
    apply distinct_NoDup in Hnd.
    rewrite (safeObjLoop_strip H Hu [] Hnd). reflexivity.
Qed.

(** X3. [safeJsonParse] throws when the host's parser throws. When the
    parser returns a value (its keys distinct), [safeJsonParse] returns
    that value without its properties under dangerous keys, at every
    level, and nothing else is changed; a value without dangerous keys is
    returned as it is. *)
Theorem safeJsonParse_strips
    (parseText : jstring -> option JsonValue) (json : jstring) :
  (parseText json = None -> safeJsonParse parseText json = None)
  /\ (forall v,
        parseText json = Some v -> uniqueKeys v = true ->
        safeJsonParse parseText json = Some (stripDangerous v)
        /\ (noDangerousKeys v = true ->
            safeJsonParse parseText json = Some v)).
Proof.
  unfold safeJsonParse, JSON_parse. split.
  - intros ->. reflexivity.
  - intros v -> Hu. rewrite (internalize_strip v Hu). split; [reflexivity|].
    intros Hs. rewrite (stripDangerous_safe v Hs). reflexivity.
Qed.

Lemma safeJsonParse_strips_witness :
  safeJsonParse parsePolluted pollutedText
  = Some (stripDangerous
            (JObject [(lit "__proto__", JObject [(lit "x", JNumber 1%float)]);
                      (lit "safe", JString (lit "dog"))])).
Proof.
  refine (proj1 (proj2 (@safeJsonParse_strips parsePolluted pollutedText)
                   _ _ _));
    reflexivity.
Defined.

(** X4. Parsing with [safeJsonParse] in place of the host's parser does
    not change what [replaceDogsWithCats] returns or throws on the parsed
    value (its keys distinct), for any limit and depth. *)
Theorem safe_parse_then_replace
    (parseText : jstring -> option JsonValue) (json : jstring)
    (v : JsonValue) (lim maxD : Z) :
  parseText json = Some v -> uniqueKeys v = true ->
  exists safe,
    safeJsonParse parseText json = Some safe
    /\ replaceDogsWithCats safe lim maxD = replaceDogsWithCats v lim maxD.
Proof.
  intros Hp Hu. exists (stripDangerous v). split.
  - unfold safeJsonParse, JSON_parse. rewrite Hp, (internalize_strip v Hu).
    reflexivity.
  - unfold replaceDogsWithCats. rewrite traverse_strip. reflexivity.
Qed.

Lemma safe_parse_then_replace_witness :
  exists safe,
    safeJsonParse parsePolluted pollutedText = Some safe
    /\ replaceDogsWithCats safe 100 100
       = replaceDogsWithCats
           (JObject [(lit "__proto__", JObject [(lit "x", JNumber 1%float)]);
                     (lit "safe", JString (lit "dog"))]) 100 100.
Proof.
  apply (@safe_parse_then_replace parsePolluted pollutedText); reflexivity.
Defined.

(** * [src/config/index.ts]: loading and validating the configuration *)

(** A call that returns or does [throw new Error(message)]. *)
Inductive Outcome (A : Type) : Type :=
| Returned (a : A)
| Raised (message : jstring).
Arguments Returned {A} a.
Arguments Raised {A} message.

Definition andThen {A B} (m : Outcome A) (k : A -> Outcome B) : Outcome B :=
  match m with
  | Returned a => k a
  | Raised message => Raised message
  end.

Module Config.

Record AppConfig : Type := mkAppConfig {
  port : Z;
  host : jstring;
  logLevel : jstring;
  maxReplacements : Z;
  maxDepth : Z;
  bodyLimit : Z;
  connectionTimeout : Z;
  rateLimitMax : Z;
  rateLimitWindowMs : Z;
  shutdownTimeout : Z
}.

Section Load.
(** [process.env], and the host's [parseInt(value, 10)] with [None] for
    [NaN]. *)
Variable env : jstring -> option jstring.
Variable parseInt10 : jstring -> option Z.

Definition getEnvNumber (key : jstring) (defaultValue : Z) : Outcome Z :=
  match env key with
  | None => Returned defaultValue
  | Some value =>
      if jstring_eqb value [] then Returned defaultValue
      else
        match parseInt10 value with
        | None =>
            Raised (lit "Invalid value for " ++ key
                    ++ lit ": expected a number, got " ++ [34%N] ++ value
                    ++ [34%N])
        | Some parsed => Returned parsed
        end
  end.

Definition getEnvString (key : jstring) (defaultValue : jstring) : jstring :=
  match env key with
  | None => defaultValue
  | Some value => if jstring_eqb value [] then defaultValue else value
  end.

(** The object [config]: its properties are evaluated in the order they
    are written, and the first [getEnvNumber] that throws ends the
    loading. *)
Definition config : Outcome AppConfig :=
  andThen (getEnvNumber (lit "PORT") 3000) (fun port =>
  let host := getEnvString (lit "HOST") (lit "0.0.0.0") in
  let logLevel := getEnvString (lit "LOG_LEVEL") (lit "info") in
  andThen (getEnvNumber (lit "MAX_REPLACEMENTS") 100) (fun maxReplacements =>
  andThen (getEnvNumber (lit "MAX_DEPTH") 100) (fun maxDepth =>
  andThen (getEnvNumber (lit "BODY_LIMIT") (10 * 1024 * 1024)) (fun bodyLimit =>
  andThen (getEnvNumber (lit "CONNECTION_TIMEOUT") 30000) (fun connectionTimeout =>
  andThen (getEnvNumber (lit "RATE_LIMIT_MAX") 100) (fun rateLimitMax =>
  andThen (getEnvNumber (lit "RATE_LIMIT_WINDOW_MS") 60000) (fun rateLimitWindowMs =>
  andThen (getEnvNumber (lit "SHUTDOWN_TIMEOUT") 30000) (fun shutdownTimeout =>
  Returned
    (mkAppConfig port host logLevel maxReplacements maxDepth bodyLimit
       connectionTimeout rateLimitMax rateLimitWindowMs shutdownTimeout))))))))).
End Load.

Definition validateConfig (config : AppConfig) : Outcome unit :=
  if maxReplacements config <? 0
  then Raised (lit "MAX_REPLACEMENTS must be a non-negative integer")
  else if (port config <? 0) || (port config >? 65535)
  then Raised (lit "PORT must be between 0 and 65535")
  else if maxDepth config <? 1
  then Raised (lit "MAX_DEPTH must be at least 1")
  else if bodyLimit config <? 1
  then Raised (lit "BODY_LIMIT must be at least 1 byte")
  else if connectionTimeout config <? 1000
  then Raised (lit "CONNECTION_TIMEOUT must be at least 1000ms")
  else if rateLimitMax config <? 1
  then Raised (lit "RATE_LIMIT_MAX must be at least 1")
  else if rateLimitWindowMs config <? 1000
  then Raised (lit "RATE_LIMIT_WINDOW_MS must be at least 1000ms")
  else if shutdownTimeout config <? 1000
  then Raised (lit "SHUTDOWN_TIMEOUT must be at least 1000ms")
  else Returned tt.

(** The bounds [validateConfig] checks. *)
Definition withinBounds (config : AppConfig) : Prop :=
  0 <= maxReplacements config
  /\ 0 <= port config <= 65535
  /\ 1 <= maxDepth config
  /\ 1 <= bodyLimit config
  /\ 1000 <= connectionTimeout config
  /\ 1 <= rateLimitMax config
  /\ 1000 <= rateLimitWindowMs config
  /\ 1000 <= shutdownTimeout config.

(** An environment in which no variable has a value: each is unset or
    the empty string. *)
Definition noneSet (env : jstring -> option jstring) : Prop :=
  forall key, env key = None \/ env key = Some [].

Lemma validateConfig_bounds (config : AppConfig) :
  validateConfig config = Returned tt <-> withinBounds config.
Proof.
  unfold validateConfig, withinBounds.
  destruct (Z.ltb_spec (maxReplacements config) 0);
    [split; [discriminate | lia]|].
  destruct (Z.ltb_spec (port config) 0); cbn [orb];
    [split; [discriminate | lia]|].
  destruct (Z.gtb_spec (port config) 65535);
    [split; [discriminate | lia]|].
  destruct (Z.ltb_spec (maxDepth config) 1);
    [split; [discriminate | lia]|].
  destruct (Z.ltb_spec (bodyLimit config) 1);
    [split; [discriminate | lia]|].
  destruct (Z.ltb_spec (connectionTimeout config) 1000);
    [split; [discriminate | lia]|].
  destruct (Z.ltb_spec (rateLimitMax config) 1);
    [split; [discriminate | lia]|].
  destruct (Z.ltb_spec (rateLimitWindowMs config) 1000);
    [split; [discriminate | lia]|].
  destruct (Z.ltb_spec (shutdownTimeout config) 1000);
    [split; [discriminate | lia]|].
  split; [lia | reflexivity].
Qed.

Lemma getEnvNumber_noneSet (env : jstring -> option jstring)
    (parseInt10 : jstring -> option Z) (key : jstring) (defaultValue : Z) :
  noneSet env -> getEnvNumber env parseInt10 key defaultValue = Returned defaultValue.
Proof.
  intros H. unfold getEnvNumber. destruct (H key) as [-> | ->]; reflexivity.
Qed.

Lemma getEnvString_noneSet (env : jstring -> option jstring)
    (key defaultValue : jstring) :
  noneSet env -> getEnvString env key defaultValue = defaultValue.
Proof.
  intros H. unfold getEnvString. destruct (H key) as [-> | ->]; reflexivity.
Qed.

(** X5. [validateConfig] returns on the configurations within its eight
    bounds and throws on every other. With no variable set in the
    environment (unset or empty, whatever [parseInt] does), the loaded
    configuration is the defaults, and [validateConfig] returns on it. *)
Theorem validateConfig_accepts_within_bounds :
  (forall config : AppConfig,
      validateConfig config = Returned tt <-> withinBounds config)
  /\ (forall (env : jstring -> option jstring)
             (parseInt10 : jstring -> option Z),
        noneSet env ->
        config env parseInt10
        = Returned
            (mkAppConfig 3000 (lit "0.0.0.0") (lit "info") 100 100 10485760
               30000 100 60000 30000)
        /\ andThen (config env parseInt10) validateConfig = Returned tt).
Proof.
  split; [exact validateConfig_bounds|].
  intros env parseInt10 H.
  assert (E : config env parseInt10
              = Returned
                  (mkAppConfig 3000 (lit "0.0.0.0") (lit "info") 100 100
                     10485760 30000 100 60000 30000)).
  { unfold config.
    rewrite !(getEnvNumber_noneSet parseInt10 _ _ H).
    rewrite !(getEnvString_noneSet _ _ H). reflexivity. }
  split; [exact E|]. rewrite E. reflexivity.
Qed.

Lemma validateConfig_accepts_within_bounds_witness :
  config (fun _ => None) (fun _ => None)
  = Returned
      (mkAppConfig 3000 (lit "0.0.0.0") (lit "info") 100 100 10485760
         30000 100 60000 30000)
  /\ andThen (config (fun _ => None) (fun _ => None)) validateConfig
     = Returned tt.
Proof.
  apply (proj2 validateConfig_accepts_within_bounds).
  intros key. left. reflexivity.
Defined.

End Config.

(** * [src/routes/replace.route.ts] and [src/app.ts]: the handlers *)

(** [interface HttpError]: an [Error] with an optional [statusCode];
    [validation] says whether the optional [validation] property is
    truthy. *)
Module HttpError.
Record t : Type := mk {
  message : jstring;
  statusCode : option Z;
  validation : bool
}.
End HttpError.

(** [interface ErrorResponse], as the error handler fills it. *)
Module ErrorResponse.
Record t : Type := mk {
  error : jstring;
  message : jstring;
  statusCode : Z;
  requestId : jstring
}.
End ErrorResponse.

(** [String(n)] of an integer below [10^21] in absolute value: its decimal
    digits, after [-] when it is negative. *)
Definition Number_toString (n : Z) : jstring :=
  lit (NilZero.string_of_int (Z.to_int n)).

(** The [message] the constructor of [DepthLimitExceededError] passes to
    [Error]. *)
Definition Error_message (e : Error) : jstring :=
  match e with
  | DepthLimitExceededError configuredMax =>
      lit "Maximum recursion depth of " ++ Number_toString configuredMax
      ++ lit " exceeded"
  end.

(** [requestLimit ? Math.min(requestLimit, config.maxReplacements)
    : config.maxReplacements]: an absent limit and the limit 0 are
    falsy. *)
Definition effectiveLimit (requestLimit : option Z) (maxReplacements : Z) : Z :=
  match requestLimit with
  | None => maxReplacements
  | Some l => if l =? 0 then maxReplacements else Z.min l maxReplacements
  end.

(** The handler of [POST /replace], at the parsed body and the [limit] of
    the query string: it returns the result or throws an [HttpError]. *)
Definition replaceHandler (config : Config.AppConfig) (body : JsonValue)
    (requestLimit : option Z) : ReplacementResult + HttpError.t :=
  match replaceDogsWithCats body
          (effectiveLimit requestLimit (Config.maxReplacements config))
          (Config.maxDepth config) with
  | Normal r => inl r
  | Throw e => inr (HttpError.mk (Error_message e) (Some 400) false)
  end.

(** The [limit] the schema of the query string lets through: absent, or an
    integer of at least 1. *)
Definition schemaLimit (requestLimit : option Z) : Prop :=
  match requestLimit with
  | None => True
  | Some l => 1 <= l
  end.

(** [errorNames[statusCode] || "Error"] *)
Definition errorNames : list (Z * jstring) :=
  [(400, lit "Bad Request"); (401, lit "Unauthorized"); (403, lit "Forbidden");
   (404, lit "Not Found"); (405, lit "Method Not Allowed");
   (408, lit "Request Timeout"); (413, lit "Payload Too Large");
   (415, lit "Unsupported Media Type"); (429, lit "Too Many Requests");
   (500, lit "Internal Server Error"); (502, lit "Bad Gateway");
   (503, lit "Service Unavailable"); (504, lit "Gateway Timeout")].

Definition getErrorName (statusCode : Z) : jstring :=
  match find (fun entry => fst entry =? statusCode) errorNames with
  | Some entry => snd entry
  | None => lit "Error"
  end.

(** [process.env.NODE_ENV === "production"] *)
Definition isProduction (nodeEnv : option jstring) : bool :=
  match nodeEnv with
  | Some value => jstring_eqb value (lit "production")
  | None => false
  end.

Definition sanitizeErrorMessage (nodeEnv : option jstring) (message : jstring)
    (statusCode : Z) : jstring :=
  if isProduction nodeEnv && (statusCode >=? 500)
  then lit "An unexpected error occurred"
  else message.

(** The function given to [setErrorHandler]: the code passed to
    [reply.code] and the response sent. *)
Definition errorHandler (nodeEnv : option jstring) (error : HttpError.t)
    (requestId : jstring) : Z * ErrorResponse.t :=
  let statusCode :=
    match HttpError.statusCode error with
    | Some code => code
    | None => 500
    end in
  let response :=
    ErrorResponse.mk (getErrorName statusCode)
      (sanitizeErrorMessage nodeEnv (HttpError.message error) statusCode)
      statusCode requestId in
  if HttpError.validation error
  then (400, ErrorResponse.mk (lit "Validation Error")
               (ErrorResponse.message response) 400 requestId)
  else (statusCode, response).

(** The parser given to [addContentTypeParser]: what it passes to
    [done]. *)
Definition parseBody (parseText : jstring -> option JsonValue) (body : jstring)
    : JsonValue + HttpError.t :=
  match safeJsonParse parseText body with
  | Some json => inl json
  | None => inr (HttpError.mk (lit "Invalid JSON") (Some 400) false)
  end.

(** [interface AppMetrics]; [startTime] in milliseconds. *)
Record AppMetrics : Type := mkAppMetrics {
  requestCount : Z;
  errorCount : Z;
  totalResponseTime : float;
  startTime : Z
}.

(** The [onResponse] hook, at the response time and the status code of the
    reply. *)
Definition onResponse (metrics : AppMetrics) (responseTime : float)
    (statusCode : Z) : AppMetrics :=
  mkAppMetrics
    (requestCount metrics + 1)
    (if statusCode >=? 400 then errorCount metrics + 1 else errorCount metrics)
    (PrimFloat.add (totalResponseTime metrics) responseTime)
    (startTime metrics).

(** The metrics after the responses of [replies], the first one first. *)
Definition afterResponses (metrics : AppMetrics) (replies : list (float * Z))
    : AppMetrics :=
  fold_left (fun m reply => onResponse m (fst reply) (snd reply)) replies metrics.

Example Error_message_ex :
  Error_message (DepthLimitExceededError 100)
  = lit "Maximum recursion depth of 100 exceeded".
Proof. reflexivity. Qed.

Lemma effectiveLimit_schema (requestLimit : option Z) (maxReplacements : Z) :
  schemaLimit requestLimit ->
  effectiveLimit requestLimit maxReplacements
  = match requestLimit with
    | Some l => Z.min l maxReplacements
    | None => maxReplacements
    end.
Proof.
  destruct requestLimit as [l|]; simpl; [|reflexivity].
  intros H. destruct (Z.eqb_spec l 0); [lia | reflexivity].
Qed.

(** X6. With a configuration [validateConfig] accepts and a [limit] the
    query schema lets through, a result the handler of [POST /replace]
    returns has as many replacements as the body has occurrences, capped
    by the requested limit and by the server's maximum: never more than
    either. *)
Theorem handler_replacements_capped (config : Config.AppConfig)
    (body : JsonValue) (requestLimit : option Z) (r : ReplacementResult) :
  Config.validateConfig config = Returned tt ->
  schemaLimit requestLimit ->
  replaceHandler config body requestLimit = inl r ->
  replacements r
  = Z.min (Z.of_nat (occurrences body))
      (match requestLimit with
       | Some l => Z.min l (Config.maxReplacements config)
       | None => Config.maxReplacements config
       end)
  /\ 0 <= replacements r <= Config.maxReplacements config
  /\ (forall l, requestLimit = Some l -> replacements r <= l).
Proof.
  intros Hv Hs. apply Config.validateConfig_bounds in Hv.
  destruct Hv as (Hmax & _). unfold replaceHandler.
  rewrite (@effectiveLimit_schema requestLimit _ Hs).
  destruct (replaceDogsWithCats body _ (Config.maxDepth config))
    as [res|e] eqn:E; [|discriminate].
  intros [= <-]. apply replaceDogsWithCats_replacements in E.
  - destruct E as [E _]. rewrite E. split; [reflexivity|].
    destruct requestLimit as [l|]; simpl in Hs; split; try lia;
      intros l' [= <-] || intros l' [=]; lia.
  - destruct requestLimit as [l|]; simpl in Hs; lia.
Qed.

Lemma handler_replacements_capped_witness :
  replacements (mkResult (JArray [JString (lit "cat"); JString (lit "dog")]) 1 true)
  = Z.min (Z.of_nat (occurrences (JArray [JString (lit "dog"); JString (lit "dog")])))
      (Z.min 1 100)
  /\ 0 <= replacements
            (mkResult (JArray [JString (lit "cat"); JString (lit "dog")]) 1 true)
       <= 100
  /\ (forall l, Some 1 = Some l ->
                replacements
                  (mkResult (JArray [JString (lit "cat"); JString (lit "dog")])
                     1 true) <= l).
Proof.
  apply (@handler_replacements_capped
           (Config.mkAppConfig 3000 (lit "0.0.0.0") (lit "info") 100 100
              10485760 30000 100 60000 30000)
           (JArray [JString (lit "dog"); JString (lit "dog")]) (Some 1));
    [reflexivity | simpl; lia | reflexivity].
Defined.

(** X7. The handler of [POST /replace] returns a result when the visited
    values of the body are nested within [config.maxDepth], and otherwise
    throws an error with status code 400 whose message names that depth;
    the error handler answers it with code 400, ["Bad Request"] and the
    same message, in production or not. *)
Theorem handler_rejects_deep_body (config : Config.AppConfig)
    (body : JsonValue) (requestLimit : option Z) :
  (Z.of_nat (visitedNesting body) <= Config.maxDepth config ->
   exists r, replaceHandler config body requestLimit = inl r)
  /\ (Config.maxDepth config < Z.of_nat (visitedNesting body) ->
      let message :=
        lit "Maximum recursion depth of "
        ++ Number_toString (Config.maxDepth config) ++ lit " exceeded" in
      replaceHandler config body requestLimit
      = inr (HttpError.mk message (Some 400) false)
      /\ forall nodeEnv requestId,
          errorHandler nodeEnv (HttpError.mk message (Some 400) false) requestId
          = (400, ErrorResponse.mk (lit "Bad Request") message 400 requestId)).
Proof.
  unfold replaceHandler.
  destruct (replaceDogsWithCats_depth body
              (effectiveLimit requestLimit (Config.maxReplacements config))
              (Config.maxDepth config)) as [Hok Hdeep].
  split.
  - intros H. destruct (Hok H) as [r ->]. exists r. reflexivity.
  - intros H. rewrite (Hdeep H). split; [reflexivity|].
    intros nodeEnv requestId. unfold errorHandler, sanitizeErrorMessage.
    cbn [HttpError.statusCode HttpError.validation HttpError.message].
    change (400 >=? 500) with false. rewrite andb_false_r. reflexivity.
Qed.

Lemma handler_rejects_deep_body_witness :
  (exists r,
      replaceHandler
        (Config.mkAppConfig 3000 (lit "0.0.0.0") (lit "info") 100 1
           10485760 30000 100 60000 30000)
        (JArray [JString (lit "dog")]) None = inl r)
  /\ replaceHandler
       (Config.mkAppConfig 3000 (lit "0.0.0.0") (lit "info") 100 1
          10485760 30000 100 60000 30000)
       (JArray [JArray [JString (lit "dog")]]) None
     = inr (HttpError.mk (lit "Maximum recursion depth of 1 exceeded")
              (Some 400) false).
Proof.
  split.
  - apply (proj1 (@handler_rejects_deep_body
                    (Config.mkAppConfig 3000 (lit "0.0.0.0") (lit "info") 100 1
                       10485760 30000 100 60000 30000)
                    (JArray [JString (lit "dog")]) None)).
    simpl. lia.
  - apply (proj2 (@handler_rejects_deep_body
                    (Config.mkAppConfig 3000 (lit "0.0.0.0") (lit "info") 100 1
                       10485760 30000 100 60000 30000)
                    (JArray [JArray [JString (lit "dog")]]) None)).
    simpl. lia.
Defined.

(** X8. The body parser fails exactly when the host's parser rejects the
    text, with an error of status code 400 and message ["Invalid JSON"],
    which the error handler answers with code 400 and ["Bad Request"]; a
    body it passes on has no dangerous key at any level. *)
Theorem parseBody_rejects_or_cleans
    (parseText : jstring -> option JsonValue) (body : jstring) :
  (parseText body = None <->
   parseBody parseText body
   = inr (HttpError.mk (lit "Invalid JSON") (Some 400) false))
  /\ (forall nodeEnv requestId,
        errorHandler nodeEnv (HttpError.mk (lit "Invalid JSON") (Some 400) false)
          requestId
        = (400, ErrorResponse.mk (lit "Bad Request") (lit "Invalid JSON") 400
                  requestId))
  /\ (forall json,
        parseBody parseText body = inl json -> noDangerousKeys json = true).
Proof.
  unfold parseBody, safeJsonParse, JSON_parse. split; [|split].
  - destruct (parseText body); split; intros H;
      reflexivity || discriminate.
  - intros nodeEnv requestId. unfold errorHandler, sanitizeErrorMessage.
    cbn [HttpError.statusCode HttpError.validation HttpError.message].
    change (400 >=? 500) with false. rewrite andb_false_r. reflexivity.
  - intros json. destruct (parseText body); [|discriminate].
    intros [= <-]. apply internalize_safe.
Qed.

Lemma parseBody_rejects_or_cleans_witness :
  noDangerousKeys (JObject [(lit "safe", JString (lit "dog"))]) = true.
Proof.
  apply (proj2 (proj2 (@parseBody_rejects_or_cleans parsePolluted pollutedText))).
  reflexivity.
Defined.



(** ** The metrics of [src/app.ts] *)

Lemma afterResponses_counts (replies : list (float * Z)) :
  forall metrics : AppMetrics,
    requestCount (afterResponses metrics replies)
    = requestCount metrics + Z.of_nat (length replies)
    /\ errorCount (afterResponses metrics replies)
       = errorCount metrics
         + Z.of_nat (length (filter (fun reply => snd reply >=? 400) replies))
    /\ startTime (afterResponses metrics replies) = startTime metrics.
Proof.
  unfold afterResponses.
  induction replies as [|[time code] rest IH]; intros metrics.
  - simpl. lia.
  - cbn [fold_left filter length fst snd].
    destruct (IH (onResponse metrics time code)) as (Hr & He & Hs).
    rewrite Hr, He, Hs. unfold onResponse; simpl.
    destruct (code >=? 400); cbn [length]; lia.
Qed.

(** X10. Whatever replies the [onResponse] hook sees, in whatever order,
    [requestCount] has grown by their number and [errorCount] by the number
    of those with a status code of 400 or more; so, counters that start
    with [0 <= errorCount <= requestCount] (both are 0 at start) stay so. *)
Theorem metrics_counts (metrics : AppMetrics) (replies : list (float * Z)) :
  0 <= errorCount metrics <= requestCount metrics ->
  requestCount (afterResponses metrics replies)
  = requestCount metrics + Z.of_nat (length replies)
  /\ errorCount (afterResponses metrics replies)
     = errorCount metrics
       + Z.of_nat (length (filter (fun reply => snd reply >=? 400) replies))
  /\ 0 <= errorCount (afterResponses metrics replies)
       <= requestCount (afterResponses metrics replies).
Proof.
  intros H. destruct (afterResponses_counts replies metrics) as (Hr & He & _).
  split; [exact Hr|]. split; [exact He|]. rewrite Hr, He.
  pose proof (filter_length_le (fun reply : float * Z => snd reply >=? 400)
                replies).
  lia.
Qed.

Lemma metrics_counts_witness :
  requestCount
    (afterResponses (mkAppMetrics 0 0 0%float 0)
       [(1%float, 200); (2%float, 400); (3%float, 503)])
  = 0 + Z.of_nat (length [(1%float, 200); (2%float, 400); (3%float, 503)]).
Proof.
  apply (@metrics_counts (mkAppMetrics 0 0 0%float 0)
           [(1%float, 200); (2%float, 400); (3%float, 503)]).
  simpl. lia.
Defined.

(** * The occurrences a replacement leaves *)

(** [positions] are matches of [s] at or after [from], in increasing order
    and without overlap. *)
Inductive Spaced (s : jstring) : nat -> list nat -> Prop :=
| Spaced_nil : forall from, Spaced s from []
| Spaced_cons : forall from m rest,
    (from <= m)%nat -> matchesAt s m = true -> Spaced s (m + 3) rest ->
    Spaced s from (m :: rest).

(** The code unit that the replacements at [positions] put at index [j],
    if one of them covers [j]. *)
Fixpoint replacedAt (positions : list nat) (j : nat) : option code_unit :=
  match positions with
  | [] => None
  | m :: rest =>
      if (m <=? j)%nat && (j <? m + 3)%nat then nth_error TARGET_WORD (j - m)
      else replacedAt rest j
  end.

(** The source word is at index [i] of [s]. *)
Definition sourceAt (s : jstring) (i : nat) : Prop :=
  nth_error s i = Some 100%N /\ nth_error s (i + 1) = Some 111%N
  /\ nth_error s (i + 2) = Some 103%N.

(** No code unit, or one that is not an ASCII letter or digit. *)
Definition boundaryAt (o : option code_unit) : bool :=
  match o with
  | Some c => negb (isAlnum c)
  | None => true
  end.

Lemma positionsFrom_Spaced (s : jstring) (p : nat) :
  Spaced s p (positionsFrom s p).
Proof.
  remember (length s + 1 - p)%nat as n eqn:Hn. revert p Hn.
  induction n as [n IH] using lt_wf_ind. intros p Hn.
  destruct (exec s p) as [m|] eqn:E.
  - rewrite (positionsFrom_some _ _ E).
    destruct (exec_some _ _ E) as [Hle Hm].
    pose proof (matchesAt_inside _ _ Hm) as Hin. simpl in Hin.
    apply Spaced_cons; [lia | exact Hm |].
    apply (IH (length s + 1 - (m + 3))%nat); [lia | reflexivity].
  - rewrite (positionsFrom_none _ _ E). constructor.
Qed.

Lemma Spaced_firstn (s : jstring) (from : nat) (positions : list nat) :
  Spaced s from positions -> forall k, Spaced s from (firstn k positions).
Proof.
  induction 1 as [|from m rest Hle Hm _ IH]; intros [|k]; simpl;
    try constructor; auto.
Qed.

Lemma Spaced_In (s : jstring) (from : nat) (positions : list nat) :
  Spaced s from positions ->
  forall m, In m positions -> (from <= m)%nat /\ matchesAt s m = true.
Proof.
  induction 1 as [|from m0 rest Hle Hm _ IH]; intros m; [intros []|].
  intros [<-|Hin]; [auto|]. destruct (IH m Hin). split; [lia | assumption].
Qed.

Lemma replacedAt_before (s : jstring) (from : nat) (positions : list nat) :
  Spaced s from positions ->
  forall j, (j < from)%nat -> replacedAt positions j = None.
Proof.
  induction 1 as [|from m rest Hle Hm _ IH]; intros j Hj; [reflexivity|].
  simpl. destruct (Nat.leb_spec m j); [lia|]. simpl. apply IH. lia.
Qed.

Lemma replacedAt_Some (positions : list nat) (j : nat) (c : code_unit) :
  replacedAt positions j = Some c ->
  exists m, In m positions /\ (m <= j < m + 3)%nat
            /\ nth_error TARGET_WORD (j - m) = Some c.
Proof.
  induction positions as [|m rest IH]; simpl; [discriminate|].
  destruct (Nat.leb_spec m j); simpl.
  - destruct (Nat.ltb_spec j (m + 3)).
    + intros H1. exists m. split; [left; reflexivity|]. split; [lia|exact H1].
    + intros H1. destruct (IH H1) as (m' & Hin & Hr). exists m'. tauto.
  - intros H1. destruct (IH H1) as (m' & Hin & Hr). exists m'. tauto.
Qed.

Lemma replacedAt_In (s : jstring) (from : nat) (positions : list nat) :
  Spaced s from positions ->
  forall m, In m positions -> replacedAt positions m <> None.
Proof.
  induction 1 as [|from m0 rest Hle Hm Hrest IH]; intros m; [intros []|].
  intros [<-|Hin]; simpl.
  - rewrite Nat.leb_refl. destruct (Nat.ltb_spec m0 (m0 + 3)); [|lia].
    simpl. rewrite Nat.sub_diag. discriminate.
  - destruct (Spaced_In Hrest _ Hin) as [Hge _].
    destruct (Nat.ltb_spec m (m0 + 3)); [lia|].
    rewrite andb_false_r. apply IH, Hin.
Qed.

Lemma matchesAt_nth (s : jstring) (m j : nat) :
  matchesAt s m = true -> (m <= j < m + 3)%nat ->
  nth_error s j = nth_error SOURCE_WORD (j - m).
Proof.
  intros Hm Hj. destruct (matchesAt_source _ _ Hm) as [rest E].
  replace j with (m + (j - m))%nat at 1 by lia.
  rewrite <- nth_error_skipn, E. apply nth_error_app1. simpl. lia.
Qed.

(** The string with replacements at [positions], code unit by code unit. *)
Lemma substitute_nth (s : jstring) (from : nat) (positions : list nat) :
  Spaced s from positions ->
  forall j,
    nth_error (substitute s from positions) j
    = match replacedAt positions (from + j) with
      | Some c => Some c
      | None => nth_error s (from + j)
      end.
Proof.
  induction 1 as [from|from m rest Hle Hm Hrest IH]; intros j.
  - simpl. unfold sliceFrom. apply nth_error_skipn.
  - pose proof (matchesAt_inside _ _ Hm) as Hin. simpl in Hin.
    cbn [substitute replacedAt]. change (length SOURCE_WORD) with 3%nat.
    assert (Hlen : length (slice s from m) = (m - from)%nat).
    { unfold slice. rewrite length_firstn, length_skipn. lia. }
    destruct (Nat.leb_spec m (from + j)) as [Hge|Hlt]; cbn [andb].
    + rewrite nth_error_app2 by lia. rewrite Hlen.
      destruct (Nat.ltb_spec (from + j) (m + 3)) as [Hin3|Hout].
      * rewrite nth_error_app1 by (simpl; lia).
        replace (from + j - m)%nat with (j - (m - from))%nat by lia.
        destruct (j - (m - from))%nat as [|[|[|x]]] eqn:Ex; try reflexivity.
        lia.
      * rewrite nth_error_app2 by (simpl; lia).
        change (length TARGET_WORD) with 3%nat. rewrite IH.
        replace (m + 3 + (j - (m - from) - 3))%nat with (from + j)%nat by lia.
        reflexivity.
    + rewrite nth_error_app1 by lia. unfold slice.
      rewrite nth_error_firstn, nth_error_skipn.
      destruct (Nat.ltb_spec j (m - from)); [|lia].
      rewrite (@replacedAt_before s (m + 3) rest Hrest) by lia. reflexivity.
Qed.

Lemma matchesAt_iff (s : jstring) (i : nat) :
  matchesAt s i = true
  <-> lookbehind s i = true /\ sourceAt s i /\ lookahead s (i + 3) = true.
Proof.
  unfold matchesAt. change (length SOURCE_WORD) with 3%nat.
  rewrite !andb_true_iff, jstring_eqb_eq.
  assert (Hw : slice s i (i + 3) = SOURCE_WORD <-> sourceAt s i).
  { unfold slice, sourceAt. replace (i + 3 - i)%nat with 3%nat by lia.
    rewrite <- !nth_error_skipn.
    replace (nth_error s i) with (nth_error (skipn i s) 0)
      by (rewrite nth_error_skipn; f_equal; lia).
    unfold SOURCE_WORD.
    destruct (skipn i s) as [|a [|b [|c rest]]]; simpl;
      split; intros H; try discriminate; try (intuition discriminate).
    - injection H as -> -> ->. auto.
    - destruct H as ([= ->] & [= ->] & [= ->]). reflexivity. }
  rewrite Hw. tauto.
Qed.

Lemma lookbehind_boundary (s : jstring) (i : nat) :
  lookbehind s i
  = match i with O => true | S j => boundaryAt (nth_error s j) end.
Proof. reflexivity. Qed.

Lemma lookahead_boundary (s : jstring) (i : nat) :
  lookahead s i = boundaryAt (nth_error s i).
Proof. reflexivity. Qed.

(** A replacement puts a letter where a letter was, so it moves no word
    boundary. *)
Lemma substitute_boundary (s : jstring) (positions : list nat) :
  Spaced s 0 positions ->
  forall j,
    boundaryAt (nth_error (substitute s 0 positions) j)
    = boundaryAt (nth_error s j).
Proof.
  intros Hsp j. rewrite (substitute_nth Hsp). cbn [Nat.add].
  destruct (replacedAt positions j) as [c|] eqn:E; [|reflexivity].
  destruct (replacedAt_Some _ _ E) as (m & Hin & Hj & Hc).
  destruct (Spaced_In Hsp _ Hin) as [_ Hm].
  rewrite (matchesAt_nth _ Hm Hj).
  destruct (j - m)%nat as [|[|[|x]]]; simpl in Hc |- *;
    try (injection Hc as <-; reflexivity).
  destruct x; discriminate.
Qed.

Lemma substitute_length (s : jstring) (positions : list nat) :
  Spaced s 0 positions -> length (substitute s 0 positions) = length s.
Proof.
  intros Hsp.
  assert (Hnone : forall j, nth_error (substitute s 0 positions) j = None
                            <-> nth_error s j = None).
  { intros j. rewrite (substitute_nth Hsp). cbn [Nat.add].
    destruct (replacedAt positions j) as [c|] eqn:E; [|tauto].
    destruct (replacedAt_Some _ _ E) as (m & Hin & Hj & Hc).
    destruct (Spaced_In Hsp _ Hin) as [_ Hm].
    rewrite (matchesAt_nth _ Hm Hj).
    destruct (j - m)%nat as [|[|[|x]]] eqn:Ex; simpl; split;
      try discriminate; lia. }
  apply Nat.le_antisymm.
  - apply nth_error_None, Hnone, nth_error_None. lia.
  - apply nth_error_None, Hnone, nth_error_None. lia.
Qed.

(** The target word holds none of the code units of the source word. *)
Lemma replacedAt_not_source (positions : list nat) (j k : nat) :
  (k < 3)%nat -> replacedAt positions j <> nth_error SOURCE_WORD k.
Proof.
  intros Hk E. destruct (replacedAt positions j) as [c|] eqn:Er.
  - destruct (replacedAt_Some _ _ Er) as (m & _ & _ & Hc).
    destruct (j - m)%nat as [|[|[|x]]]; destruct k as [|[|[|k]]];
      simpl in *; try lia; try congruence.
    all: destruct x; discriminate.
  - destruct k as [|[|[|k]]]; simpl in E; try discriminate. lia.
Qed.

Lemma replacedAt_clear (s : jstring) (positions : list nat) (i : nat) :
  Spaced s 0 positions -> matchesAt s i = true -> ~ In i positions ->
  forall j, (i <= j < i + 3)%nat -> replacedAt positions j = None.
Proof.
  intros Hsp Hi Hnot j Hj.
  destruct (replacedAt positions j) as [c|] eqn:E; [|reflexivity].
  destruct (replacedAt_Some _ _ E) as (m & Hin & Hm3 & _).
  destruct (Spaced_In Hsp _ Hin) as [_ Hm].
  destruct (matchesAt_apart _ _ Hi) as [Hi1 Hi2].
  destruct (matchesAt_apart _ _ Hm) as [Hm1 Hm2].
  assert (Hcases : m = i \/ m = S i \/ m = S (S i) \/ i = S m \/ i = S (S m))
    by lia.
  destruct Hcases as [-> | [-> | [-> | [-> | ->]]]]; congruence.
Qed.

(** The matches of the string after replacements at [positions] are the
    matches of the string that are not in [positions]. *)
Lemma substitute_matchesAt (s : jstring) (positions : list nat) :
  Spaced s 0 positions ->
  forall i,
    matchesAt (substitute s 0 positions) i = true
    <-> matchesAt s i = true /\ ~ In i positions.
Proof.
  intros Hsp i. rewrite !matchesAt_iff.
  rewrite !lookbehind_boundary, !lookahead_boundary.
  rewrite (substitute_boundary Hsp).
  assert (Hb : match i with
               | O => true
               | S j => boundaryAt (nth_error (substitute s 0 positions) j)
               end
               = match i with O => true | S j => boundaryAt (nth_error s j) end)
    by (destruct i; [reflexivity | apply (substitute_boundary Hsp)]).
  rewrite Hb. unfold sourceAt. rewrite !(substitute_nth Hsp). cbn [Nat.add].
  split.
  - intros (Hlb & (H0 & H1 & H2) & Hla).
    assert (E0 : replacedAt positions i = None).
    { destruct (replacedAt positions i) eqn:E; [|reflexivity].
      exfalso. apply (@replacedAt_not_source positions i 0); [lia|].
      rewrite E. exact H0. }
    assert (E1 : replacedAt positions (i + 1) = None).
    { destruct (replacedAt positions (i + 1)) eqn:E; [|reflexivity].
      exfalso. apply (@replacedAt_not_source positions (i + 1) 1); [lia|].
      rewrite E. exact H1. }
    assert (E2 : replacedAt positions (i + 2) = None).
    { destruct (replacedAt positions (i + 2)) eqn:E; [|reflexivity].
      exfalso. apply (@replacedAt_not_source positions (i + 2) 2); [lia|].
      rewrite E. exact H2. }
    rewrite E0 in H0. rewrite E1 in H1. rewrite E2 in H2.
    split; [tauto|]. intros Hin. exact (replacedAt_In Hsp _ Hin E0).
  - intros ((Hlb & (H0 & H1 & H2) & Hla) & Hnot).
    assert (Hi : matchesAt s i = true).
    { apply matchesAt_iff. unfold sourceAt.
      rewrite lookbehind_boundary, lookahead_boundary. tauto. }
    rewrite !(replacedAt_clear Hsp Hi Hnot) by lia. tauto.
Qed.

Lemma existsb_eqb_In (i : nat) (l : list nat) :
  existsb (Nat.eqb i) l = true <-> In i l.
Proof.
  rewrite existsb_exists. split.
  - intros (x & Hx & E). apply Nat.eqb_eq in E. subst x. exact Hx.
  - intros Hi. exists i. split; [exact Hi | apply Nat.eqb_refl].
Qed.

Lemma filter_none {A : Type} (f : A -> bool) (l : list A) :
  (forall x, In x l -> f x = false) -> filter f l = [].
Proof.
  induction l as [|x l IH]; intros H; [reflexivity|].
  simpl. rewrite (H x (or_introl eq_refl)). apply IH.
  intros y Hy. apply H. right. exact Hy.
Qed.

Lemma filter_all {A : Type} (f : A -> bool) (l : list A) :
  (forall x, In x l -> f x = true) -> filter f l = l.
Proof.
  induction l as [|x l IH]; intros H; [reflexivity|].
  simpl. rewrite (H x (or_introl eq_refl)). f_equal. apply IH.
  intros y Hy. apply H. right. exact Hy.
Qed.

Lemma NoDup_app_apart (a b : list nat) (x : nat) :
  NoDup (a ++ b) -> In x a -> In x b -> False.
Proof.
  induction a as [|y a IH]; intros Hnd Ha Hb; [destruct Ha|].
  simpl in Hnd. inversion Hnd as [|? ? Hy Hnd']; subst.
  destruct Ha as [->|Ha]; [apply Hy, in_or_app; right; exact Hb|].
  exact (IH Hnd' Ha Hb).
Qed.

Lemma filter_keeps_rest (a b : list nat) :
  NoDup (a ++ b) ->
  filter (fun i => negb (existsb (Nat.eqb i) a)) (a ++ b) = b.
Proof.
  intros Hnd. rewrite filter_app, filter_none, filter_all; [reflexivity| |].
  - intros x Hx. apply negb_true_iff.
    destruct (existsb (Nat.eqb x) a) eqn:E; [|reflexivity].
    apply existsb_eqb_In in E. destruct (@NoDup_app_apart a b x Hnd E Hx).
  - intros x Hx. apply negb_false_iff, existsb_eqb_In, Hx.
Qed.

Lemma filter_twice {A : Type} (f g : A -> bool) (l : list A) :
  filter g (filter f l) = filter (fun x => f x && g x) l.
Proof.
  induction l as [|x l IH]; [reflexivity|].
  simpl. destruct (f x); simpl; [destruct (g x)|]; rewrite IH; reflexivity.
Qed.

Lemma matchPositions_substitute (s : jstring) (k : nat) :
  matchPositions (substitute s 0 (firstn k (matchPositions s)))
  = skipn k (matchPositions s).
Proof.
  pose proof (Spaced_firstn (positionsFrom_Spaced s 0) k) as Hsp.
  fold (matchPositions s) in Hsp.
  assert (Hnd : NoDup (matchPositions s))
    by (apply NoDup_filter, seq_NoDup).
  rewrite <- (firstn_skipn k (matchPositions s)) in Hnd.
  rewrite <- (filter_keeps_rest _ _ Hnd), firstn_skipn.
  remember (firstn k (matchPositions s)) as done eqn:Hdone.
  unfold matchPositions, positionsFrom.
  rewrite (substitute_length Hsp), filter_twice.
  apply filter_ext. intros i.
  apply Bool.eq_iff_eq_true.
  rewrite (substitute_matchesAt Hsp), andb_true_iff, negb_true_iff.
  rewrite <- Bool.not_true_iff_false, existsb_eqb_In. tauto.
Qed.

(** X11. [replaceInString] returns a string of the same length whose
    whole-word occurrences are the occurrences of its input that it did
    not replace, at the same indices: it creates none and moves none.
    When the budget covers every occurrence, none is left. *)
Theorem replaceInString_leaves_the_rest (s : jstring) (c : ReplacementContext) :
  exists s',
    replaceInString s c
    = (Normal s', count_add c (Nat.min (length (matchPositions s)) (budget c)))
    /\ length s' = length s
    /\ matchPositions s'
       = skipn (Nat.min (length (matchPositions s)) (budget c))
           (matchPositions s)
    /\ ((length (matchPositions s) <= budget c)%nat -> matchPositions s' = []).
Proof.
  rewrite replaceInString_spec. eexists. split; [reflexivity|].
  pose proof (Spaced_firstn (positionsFrom_Spaced s 0)
                (Nat.min (length (matchPositions s)) (budget c))) as Hsp.
  split; [exact (substitute_length Hsp)|].
  split; [apply matchPositions_substitute|].
  intros Hle. rewrite matchPositions_substitute.
  rewrite Nat.min_l by exact Hle. apply skipn_all.
Qed.

Lemma replaceInString_leaves_the_rest_witness :
  exists s',
    replaceInString (lit "dog, dog and dog") (mkContext 0 2 0 100)
    = (Normal s', mkContext 2 2 0 100)
    /\ length s' = 16%nat
    /\ matchPositions s' = [13%nat].
Proof.
  destruct (replaceInString_leaves_the_rest (lit "dog, dog and dog")
              (mkContext 0 2 0 100)) as (s' & E & Hlen & Hrest & _).
  exists s'. split; [exact E|]. split; [exact Hlen | exact Hrest].
Defined.

(** ** The occurrences left in a result *)

Lemma occurrences_app (a b : JsonObject) :
  occurrences (JObject (a ++ b))
  = (occurrences (JObject a) + occurrences (JObject b))%nat.
Proof.
  induction a as [|[k x] a IH]; [reflexivity|].
  change (occurrences (JObject (((k, x) :: a) ++ b)))
    with (if DANGEROUS_KEYS_has k then occurrences (JObject (a ++ b))
          else (occurrences x + occurrences (JObject (a ++ b)))%nat).
  change (occurrences (JObject ((k, x) :: a)))
    with (if DANGEROUS_KEYS_has k then occurrences (JObject a)
          else (occurrences x + occurrences (JObject a))%nat).
  rewrite IH. destruct (DANGEROUS_KEYS_has k); lia.
Qed.

(** A traversal of [v] that returns leaves in its result the occurrences
    of [v] that the budget did not cover. *)
Definition leavesTheRest (v : JsonValue) : Prop :=
  uniqueKeys v = true ->
  forall c r c',
    traverse v c = (Normal r, c') ->
    occurrences r = (occurrences v - Nat.min (occurrences v) (budget c))%nat.

Lemma traverseArray_rest (arr : list JsonValue) :
  Forall leavesTheRest arr ->
  forallb uniqueKeys arr = true ->
  forall c rs c',
    traverseArray arr c = (Normal rs, c') ->
    occurrences (JArray rs)
    = (occurrences (JArray arr)
       - Nat.min (occurrences (JArray arr)) (budget c))%nat.
Proof.
  induction 1 as [|item rest Hitem _ IH]; intros Hu c rs c'.
  - intros [= <- _]. reflexivity.
  - simpl in Hu. apply andb_true_iff in Hu. destruct Hu as [Hu1 Hu2].
    rewrite traverseArray_cons.
    destruct (traverse item c) as [[v|e] c1] eqn:E; [|discriminate].
    destruct (traverseArray rest c1) as [[vs|e] c2] eqn:E2; [|discriminate].
    intros [= <- _].
    change (occurrences (JArray (v :: vs)))
      with (occurrences v + occurrences (JArray vs))%nat.
    change (occurrences (JArray (item :: rest)))
      with (occurrences item + occurrences (JArray rest))%nat.
    rewrite (Hitem Hu1 _ _ _ E), (IH Hu2 _ _ _ E2).
    rewrite (@traverse_count item _ _ _ E).
    rewrite budget_count_add by apply Nat.le_min_r. lia.
Qed.

Lemma traverseObjectLoop_rest (obj : JsonObject) :
  Forall (fun kv => leavesTheRest (snd kv)) obj ->
  forallb (fun kv => uniqueKeys (snd kv)) obj = true ->
  forall acc c r c',
    NoDup (Object_keys acc ++ Object_keys obj) ->
    traverseObjectLoop traverse obj acc c = (Normal r, c') ->
    occurrences (JObject r)
    = (occurrences (JObject acc)
       + (occurrences (JObject obj)
          - Nat.min (occurrences (JObject obj)) (budget c)))%nat.
Proof.
  induction 1 as [|[key value] rest Hv _ IH]; intros Hu acc c r c' Hnd.
  - intros [= <- _]. simpl. lia.
  - simpl in Hu. apply andb_true_iff in Hu. destruct Hu as [Hu1 Hu2].
    rewrite traverseObjectLoop_cons. simpl in Hnd, Hv.
    change (occurrences (JObject ((key, value) :: rest)))
      with (if DANGEROUS_KEYS_has key then occurrences (JObject rest)
            else (occurrences value + occurrences (JObject rest))%nat).
    destruct (DANGEROUS_KEYS_has key) eqn:E.
    + apply (IH Hu2). exact (NoDup_remove_1 _ _ _ Hnd).
    + destruct (traverse value c) as [[v|e] c1] eqn:Ev; [|discriminate].
      rewrite obj_set_fresh.
      2:{ intros Hin. apply (NoDup_remove_2 _ _ _ Hnd).
          apply in_or_app. left. exact Hin. }
      intros E2. apply (IH Hu2) in E2.
      2:{ unfold Object_keys in *. rewrite map_app, <- app_assoc. exact Hnd. }
      rewrite E2, occurrences_app.
      change (occurrences (JObject [(key, v)]))
        with (if DANGEROUS_KEYS_has key then 0%nat
              else (occurrences v + 0)%nat).
      rewrite E, (Hv Hu1 _ _ _ Ev), (@traverse_count value _ _ _ Ev).
      rewrite budget_count_add by apply Nat.le_min_r. lia.
Qed.

Lemma traverse_rest (v : JsonValue) : leavesTheRest v.
Proof.
  induction v using JsonValue_ind; intros Hu c r c';
    (destruct (Z.lt_ge_cases (maxDepth c) (depth c)) as [Hdeep|Hok];
     [rewrite traverse_deep by exact Hdeep; discriminate|]).
  - rewrite traverse_scalar by (exact Hok || exact I).
    intros [= <- _]. reflexivity.
  - rewrite traverse_scalar by (exact Hok || exact I).
    intros [= <- _]. reflexivity.
  - rewrite traverse_scalar by (exact Hok || exact I).
    intros [= <- _]. reflexivity.
  - rewrite traverse_JString by exact Hok. intros [= <- _].
    cbn [occurrences]. rewrite matchPositions_substitute, length_skipn.
    reflexivity.
  - rewrite traverse_JArray by exact Hok.
    destruct (traverseArray arr (depth_incr c)) as [[rs|e] c1] eqn:E;
      [|discriminate].
    intros [= <- _]. exact (traverseArray_rest H Hu _ E).
  - rewrite traverse_JObject by exact Hok. unfold traverseObject.
    simpl in Hu. apply andb_true_iff in Hu. destruct Hu as [Hnd Hu].
    apply distinct_NoDup in Hnd.
    destruct (traverseObjectLoop traverse obj [] (depth_incr c))
      as [[rs|e] c1] eqn:E; [|discriminate].
    intros [= <- _]. exact (traverseObjectLoop_rest H Hu [] _ Hnd E).
Qed.

Lemma Object_keys_skeleton (obj : JsonObject) :
  Object_keys (List.map (fun kv => (fst kv, skeleton (snd kv))) obj)
  = Object_keys obj.
Proof.
  unfold Object_keys. rewrite map_map. apply map_ext. reflexivity.
Qed.

Lemma uniqueKeys_skeleton (v : JsonValue) :
  uniqueKeys (skeleton v) = uniqueKeys v.
Proof.
  induction v using JsonValue_ind; try reflexivity.
  - simpl. induction H as [|x rest Hx _ IH]; [reflexivity|].
    simpl. rewrite Hx, IH. reflexivity.
  - cbn [skeleton uniqueKeys]. rewrite Object_keys_skeleton. f_equal.
    induction H as [|[k x] rest Hx _ IH]; [reflexivity|].
    simpl in *. rewrite Hx, IH. reflexivity.
Qed.

Lemma visitedNesting_skeleton (v : JsonValue) :
  visitedNesting (skeleton v) = visitedNesting v.
Proof.
  induction v using JsonValue_ind; try reflexivity.
  - simpl. induction H as [|x rest Hx _ IH]; [reflexivity|].
    simpl. rewrite Hx, IH. reflexivity.
  - simpl. induction H as [|[k x] rest Hx _ IH]; [reflexivity|].
    simpl in *. rewrite Hx, IH. reflexivity.
Qed.

Lemma visitedNesting_stripDangerous (v : JsonValue) :
  visitedNesting (stripDangerous v) = visitedNesting v.
Proof.
  induction v using JsonValue_ind; try reflexivity.
  - simpl. induction H as [|x rest Hx _ IH]; [reflexivity|].
    simpl. rewrite Hx, IH. reflexivity.
  - simpl. induction H as [|[k x] rest Hx _ IH]; [reflexivity|].
    simpl in *. destruct (DANGEROUS_KEYS_has k) eqn:E; [exact IH|].
    simpl. rewrite E, Hx, IH. reflexivity.
Qed.

Lemma stripProps_keys (obj : JsonObject) (k : jstring) :
  In k (Object_keys (stripProps stripDangerous obj)) -> In k (Object_keys obj).
Proof.
  induction obj as [|[k' x] rest IH]; simpl; [tauto|].
  destruct (DANGEROUS_KEYS_has k'); simpl; tauto.
Qed.

Lemma uniqueKeys_stripDangerous (v : JsonValue) :
  uniqueKeys v = true -> uniqueKeys (stripDangerous v) = true.
Proof.
  induction v using JsonValue_ind; try (intros; reflexivity).
  - simpl. induction H as [|x rest Hx _ IH]; [reflexivity|].
    simpl. rewrite !andb_true_iff. intros [H1 H2]. auto.
  - cbn [stripDangerous uniqueKeys]. rewrite !andb_true_iff.
    intros [Hd Hu]. apply distinct_NoDup in Hd. split.
    + apply distinct_NoDup. clear Hu H.
      induction obj as [|[k x] rest IH]; [constructor|].
      simpl in Hd |- *. inversion Hd as [|? ? Hk Hrest]; subst.
      destruct (DANGEROUS_KEYS_has k); [exact (IH Hrest)|].
      simpl. constructor; [|exact (IH Hrest)].
      intros Hin. apply Hk. exact (stripProps_keys _ _ Hin).
    + clear Hd. induction H as [|[k x] rest Hx _ IH]; [reflexivity|].
      simpl in Hu, Hx |- *. apply andb_true_iff in Hu. destruct Hu as [H1 H2].
      destruct (DANGEROUS_KEYS_has k); [exact (IH H2)|].
      simpl. rewrite (Hx H1), (IH H2). reflexivity.
Qed.

Lemma noSourceWord_no_occurrence (v : JsonValue) :
  noDangerousKeys v = true -> occurrences v = 0%nat -> noSourceWord v = true.
Proof.
  induction v using JsonValue_ind; try (intros; reflexivity).
  - simpl. intros _ H. destruct (matchPositions s); [reflexivity|discriminate].
  - induction H as [|x rest Hx _ IH]; [reflexivity|].
    simpl. rewrite !andb_true_iff. intros [H1 H2] Ho.
    change (occurrences x + occurrences (JArray rest) = 0)%nat in Ho.
    split; [apply Hx; [exact H1 | lia] | apply IH; [exact H2 | lia]].
  - induction H as [|[k x] rest Hx _ IH]; [reflexivity|].
    simpl. rewrite !andb_true_iff, negb_true_iff. intros [[H0 H1] H2] Ho.
    change ((if DANGEROUS_KEYS_has k then occurrences (JObject rest)
             else (occurrences x + occurrences (JObject rest))%nat) = 0%nat)
      in Ho.
    rewrite H0 in Ho. simpl in Hx.
    split; [apply Hx; [exact H1 | lia] | apply IH; [exact H2 | lia]].
Qed.

(** X12. On an input with distinct keys and with [limit >= 0], the
    whole-word occurrences left in a result are the occurrences of the
    input less the replacements reported: the traversal loses none and
    creates none. *)
Theorem result_occurrences (input : JsonValue) (lim maxD : Z)
    (r : ReplacementResult) :
  uniqueKeys input = true -> 0 <= lim ->
  replaceDogsWithCats input lim maxD = Normal r ->
  Z.of_nat (occurrences (result r))
  = Z.of_nat (occurrences input) - replacements r.
Proof.
  intros Hu Hlim. unfold replaceDogsWithCats.
  destruct (traverse input (mkContext 0 lim 0 maxD)) as [[res|e] c'] eqn:E;
    [|discriminate].
  intros [= <-]. cbn [result replacements].
  rewrite (@traverse_rest input Hu _ _ _ E), (@traverse_count input _ _ _ E).
  unfold budget, count_add; simpl. lia.
Qed.

Lemma result_occurrences_witness :
  Z.of_nat (occurrences
              (result (mkResult (JArray [JString (lit "cat dog")]) 1 true)))
  = Z.of_nat (occurrences (JArray [JString (lit "dog dog")]))
    - replacements (mkResult (JArray [JString (lit "cat dog")]) 1 true).
Proof.
  apply (@result_occurrences (JArray [JString (lit "dog dog")]) 1 100);
    [reflexivity | lia | reflexivity].
Defined.

(** X13. When a result on an input with distinct keys says the limit was
    not reached, the result holds no whole-word occurrence any more, and
    [replaceDogsWithCats] on it, with the same depth and any limit,
    returns it unchanged with no replacement. *)
Theorem replaceDogsWithCats_idempotent (input : JsonValue) (lim maxD : Z)
    (r : ReplacementResult) :
  uniqueKeys input = true ->
  replaceDogsWithCats input lim maxD = Normal r ->
  limitReached r = false ->
  occurrences (result r) = 0%nat
  /\ forall lim',
      replaceDogsWithCats (result r) lim' maxD
      = Normal (mkResult (result r) 0 (0 >=? lim')).
Proof.
  intros Hu. unfold replaceDogsWithCats at 1.
  pose proof (traverse_frame input (mkContext 0 lim 0 maxD)) as F.
  destruct (traverse_depth input (mkContext 0 lim 0 maxD)) as [_ Hdeep].
  destruct (traverse input (mkContext 0 lim 0 maxD)) as [[res|e] c'] eqn:E;
    [|discriminate].
  intros [= <-]. cbn [result limitReached]. intros Hlr.
  pose proof (@traverse_count input _ _ _ E) as Hc.
  pose proof (@traverse_rest input Hu _ _ _ E) as Hrest.
  pose proof (@traverse_safe input _ _ _ E) as Hsafe.
  pose proof (@traverse_skeleton input Hu _ _ _ E) as Hsk.
  unfold budget in Hc, Hrest. simpl in Hc, Hrest, Hdeep.
  assert (Hzero : occurrences res = 0%nat).
  { rewrite Z.geb_leb in Hlr. apply Z.leb_gt in Hlr.
    subst c'. unfold count_add in Hlr. simpl in Hlr. lia. }
  split; [exact Hzero|]. intros lim'. unfold replaceDogsWithCats.
  rewrite traverse_identity.
  - rewrite (stripDangerous_safe res Hsafe). reflexivity.
  - rewrite <- uniqueKeys_skeleton, Hsk, uniqueKeys_skeleton.
    apply uniqueKeys_stripDangerous, Hu.
  - right. apply noSourceWord_no_occurrence; assumption.
  - simpl.
    rewrite <- visitedNesting_skeleton, Hsk, visitedNesting_skeleton,
      visitedNesting_stripDangerous.
    destruct (Z.le_gt_cases (Z.of_nat (visitedNesting input)) maxD) as [Hle|Hgt];
      [lia|].
    specialize (Hdeep ltac:(lia)). discriminate.
Qed.

Lemma replaceDogsWithCats_idempotent_witness :
  occurrences
    (result (mkResult (JObject [(lit "pet", JString (lit "cat, cat"))]) 2 false))
  = 0%nat
  /\ forall lim',
      replaceDogsWithCats
        (result (mkResult (JObject [(lit "pet", JString (lit "cat, cat"))])
                   2 false)) lim' 100
      = Normal
          (mkResult
             (result (mkResult (JObject [(lit "pet", JString (lit "cat, cat"))])
                        2 false)) 0 (0 >=? lim')).
Proof.
  apply (@replaceDogsWithCats_idempotent
           (JObject [(lit "pet", JString (lit "dog, dog"))]) 100 100);
    reflexivity.
Defined.
